(** * Group operations on I/O requests (thrill/io/request_operations.hpp)

    The header defines [wait_all], [cancel_all], [poll_any] and [wait_any]
    over a range of request handles.  Every statement of these functions is
    a call of a [Request] method, of the [onoff_switch] created by
    [wait_any], or of the wait timer.  The functions are embedded as
    programs of a small monad whose operations are exactly those calls, and
    the programs are given

    - a log semantics ([exec]): which calls a run makes, in which order and
      with which answers, for every behaviour of the callees;
    - an interleaving semantics ([step]) over a state of requests and
      switches, in which the completion side of the requests runs between
      any two calls of the program. *)

From stdpp Require Import prelude functions gmap relations.

Set Warnings "-clear-no-such-hyp".

(** * Definitions *)

(** ** Handles *)

(** A [RequestPtr] is a shared handle on a request object, a switch is
    taken by its address: both are names of objects in the state. *)
Abbreviation Req := nat.
Abbreviation Switch := nat.

(** The error value stored in a failed request. *)
Abbreviation Err := nat.

(** Operation kinds of the wait statistics; [wait_any] uses
    [Stats::WAIT_OP_ANY]. *)
Inductive wait_op := WAIT_OP_ANY.

(** ** The calls made by the header *)

Inductive reqE : Type → Type :=
| Wait (r : Req) : reqE unit                         (* r->wait() *)
| Poll (r : Req) : reqE bool                         (* r->poll() *)
| Cancel (r : Req) : reqE bool                       (* r->cancel() *)
| AddWaiter (r : Req) (sw : Switch) : reqE bool      (* r->add_waiter(&sw) *)
| DeleteWaiter (r : Req) (sw : Switch) : reqE unit   (* r->delete_waiter(&sw) *)
| CheckError (r : Req) : reqE (option Err)           (* r->check_error(): [Some e] when it throws e *)
| NewSwitch : reqE Switch                            (* common::onoff_switch sw; *)
| WaitForOn (sw : Switch) : reqE unit                (* sw.wait_for_on() *)
| TimerStart (op : wait_op) : reqE unit              (* scoped_wait_timer constructor *)
| TimerStop (op : wait_op) : reqE unit.              (* scoped_wait_timer destructor *)

(** ** Programs *)

(** A program returns, throws, or makes a call and continues with its
    answer. *)
Inductive prog (A : Type) : Type :=
| Ret (a : A)
| Throw (e : Err)
| Vis {X : Type} (c : reqE X) (k : X → prog A).
Arguments Ret {A} a.
Arguments Throw {A} e.
Arguments Vis {A X} c k.

Fixpoint bind {A B} (t : prog A) (f : A → prog B) : prog B :=
  match t with
  | Ret a => f a
  | Throw e => Throw e
  | Vis c k => Vis c (λ x, bind (k x) f)
  end.

Definition call {X} (c : reqE X) : prog X := Vis c Ret.

(** The program ends within [n] calls, whatever the answers. *)
Fixpoint calls_within {A} (n : nat) (t : prog A) {struct t} : Prop :=
  match t with
  | Ret _ | Throw _ => True
  | Vis c k =>
      match n with
      | 0 => False
      | S n' => ∀ x, calls_within n' (k x)
      end
  end.

Declare Scope prog_scope.
Delimit Scope prog_scope with prog.
Bind Scope prog_scope with prog.
Notation "x ← y ; z" := (bind y (λ x, z))
  (at level 20, y at level 100, z at level 200, only parsing) : prog_scope.
Notation "x ;; z" := (bind x (λ _, z))
  (at level 100, z at level 200, only parsing, right associativity) : prog_scope.
Open Scope prog_scope.

(** How a finished run ends. *)
Inductive outcome (A : Type) : Type :=
| Returned (a : A)
| Raised (e : Err).
Arguments Returned {A} a.
Arguments Raised {A} e.

(** ** The request interface, as used by the header *)

(** The header calls six methods of a request and one of a switch.  Each
    call is one operation of the program; what it does to the state is
    given further down, with the requests and the switches. *)
Definition wait (r : Req) : prog unit := call (Wait r).
Definition poll (r : Req) : prog bool := call (Poll r).
Definition cancel (r : Req) : prog bool := call (Cancel r).
Definition add_waiter (r : Req) (sw : Switch) : prog bool := call (AddWaiter r sw).
Definition delete_waiter (r : Req) (sw : Switch) : prog unit := call (DeleteWaiter r sw).
Definition wait_for_on (sw : Switch) : prog unit := call (WaitForOn sw).

(** Modelled from the spec: [Request::check_error] (thrill/io/request.hpp)
    is not part of the sources at hand.  By the specification it raises
    the stored error of a failed request to the caller, and does nothing
    otherwise; the header has no handler, so the error leaves the function
    that called [check_error]. *)
Definition check_error (r : Req) : prog unit :=
  Vis (CheckError r) (λ o, match o with Some e => Throw e | None => Ret tt end).

(** Modelled from the spec: [Stats::scoped_wait_timer]
    (thrill/io/iostats.hpp) is not part of the sources at hand; it reports
    the time spent in the function to the statistics.  As a local object
    declared at the head of the function body, its constructor runs first,
    and its destructor on every way out of the body, by return or by
    exception. *)
Fixpoint on_exit {A} (op : wait_op) (body : prog A) : prog A :=
  match body with
  | Ret a => Vis (TimerStop op) (λ _, Ret a)
  | Throw e => Vis (TimerStop op) (λ _, Throw e)
  | Vis c k => Vis c (λ x, on_exit op (k x))
  end.

Definition scoped_wait_timer {A} (op : wait_op) (body : prog A) : prog A :=
  Vis (TimerStart op) (λ _, on_exit op body).

(** ** The group operations *)

(** A range [reqs_begin, reqs_end) is the list of the handles it holds; an
    iterator into it is its offset from [reqs_begin], so [reqs_end] is the
    length of the list.  The loops walk the part of the range that is
    still ahead of the iterator. *)

(** [wait_all(reqs_begin, reqs_end)]:
    for ( ; reqs_begin != reqs_end; ++reqs_begin) reqs_begin->wait(); *)
Fixpoint wait_all (reqs : list Req) : prog unit :=
  match reqs with
  | [] => Ret tt
  | r :: reqs' => wait r;; wait_all reqs'
  end.

(** [wait_all(req_array, count)] = wait_all(req_array, req_array + count). *)
Definition wait_all_array (req_array : list Req) (count : nat) : prog unit :=
  wait_all (take count req_array).

(** [cancel_all(reqs_begin, reqs_end)]:

      num_canceled = 0;
      while (reqs_begin != reqs_end) {
          if (reqs_begin->cancel()) ++num_canceled;
          ++reqs_begin;
      }
      return num_canceled;

    [cancel_all_loop] is the loop, with the counter [num_canceled] so far.
    The counter has the iterator's [difference_type], which holds the
    length of the range: it is incremented at most once per request and
    does not wrap. *)
Fixpoint cancel_all_loop (reqs : list Req) (num_canceled : nat) : prog nat :=
  match reqs with
  | [] => Ret num_canceled
  | r :: reqs' =>
      b ← cancel r;
      cancel_all_loop reqs' (if b then S num_canceled else num_canceled)
  end.

Definition cancel_all (reqs : list Req) : prog nat :=
  cancel_all_loop reqs 0.

(** [poll_any(reqs_begin, reqs_end)]:

      while (reqs_begin != reqs_end) {
          if (reqs_begin->poll()) return reqs_begin;
          ++reqs_begin;
      }
      return reqs_end;

    [poll_any_loop] is the loop with [reqs_begin] at offset [cur]; the
    result is the offset of the iterator returned. *)
Fixpoint poll_any_loop (reqs : list Req) (cur : nat) : prog nat :=
  match reqs with
  | [] => Ret cur
  | r :: reqs' =>
      b ← poll r;
      if b then Ret cur else poll_any_loop reqs' (S cur)
  end.

Definition poll_any (reqs : list Req) : prog nat :=
  poll_any_loop reqs 0.

(** [poll_any(req_array, count, index)]: the pair of the returned flag and
    of the value assigned to the out-parameter [index]:
      res = poll_any(req_array, req_array + count);
      index = res - req_array;
      return res != (req_array + count); *)
Definition poll_any_array (req_array : list Req) (count : nat) : prog (bool * nat) :=
  res ← poll_any (take count req_array);
  let index := res in
  Ret (negb (res =? count), index).

(** [wait_any], the undoing of the registrations when [add_waiter] answered
    true at [cur].  [before] holds the requests in front of [cur], the
    nearest first.

      if (cur != reqs_begin) {
          while (--cur != reqs_begin) cur->delete_waiter(&sw);
          cur->delete_waiter(&sw);
      }

    [wait_any_undo_while sw r before] is the loop just after [--cur] has
    moved [cur] onto [r], with [before] in front of it; it returns the
    request [cur] is on when the loop is left, which is the first of the
    range. *)
Fixpoint wait_any_undo_while (sw : Switch) (r : Req) (before : list Req) : prog Req :=
  match before with
  | [] => Ret r
  | r' :: before' => delete_waiter r sw;; wait_any_undo_while sw r' before'
  end.

Definition wait_any_undo (sw : Switch) (before : list Req) : prog unit :=
  match before with
  | [] => Ret tt
  | r :: before' =>
      r0 ← wait_any_undo_while sw r before';
      delete_waiter r0 sw
  end.

(** [wait_any], the second loop, after [sw.wait_for_on()]:

      for (cur = reqs_begin; cur != reqs_end; cur++) {
          cur->delete_waiter(&sw);
          if (result == reqs_end && cur->poll()) result = cur;
      }
      return result; *)
Fixpoint wait_any_cleanup (sw : Switch) (reqs_end : nat)
    (reqs : list Req) (cur result : nat) : prog nat :=
  match reqs with
  | [] => Ret result
  | r :: reqs' =>
      delete_waiter r sw;;
      if result =? reqs_end then
        b ← poll r;
        wait_any_cleanup sw reqs_end reqs' (S cur) (if b then cur else result)
      else
        wait_any_cleanup sw reqs_end reqs' (S cur) result
  end.

(** [wait_any], the first loop, with [cur] between [before] (nearest
    first) and [reqs]; [all] is the whole range.

      for ( ; cur != reqs_end; cur++)
          if (cur->add_waiter(&sw)) {
              result = cur;
              ... undo ...
              result->check_error();
              return result;
          }
      sw.wait_for_on();
      ... second loop ... *)
Fixpoint wait_any_scan (sw : Switch) (all : list Req)
    (before reqs : list Req) : prog nat :=
  match reqs with
  | [] =>
      wait_for_on sw;;
      wait_any_cleanup sw (length all) all 0 (length all)
  | r :: reqs' =>
      done ← add_waiter r sw;
      if done then
        let result := length before in
        wait_any_undo sw before;;
        check_error r;;
        Ret result
      else wait_any_scan sw all (r :: before) reqs'
  end.

Definition wait_any (reqs : list Req) : prog nat :=
  scoped_wait_timer WAIT_OP_ANY (
    sw ← call NewSwitch;
    wait_any_scan sw reqs [] reqs).

(** [wait_any(req_array, count)] =
    wait_any(req_array, req_array + count) - req_array. *)
Definition wait_any_array (req_array : list Req) (count : nat) : prog nat :=
  wait_any (take count req_array).

(** ** Log semantics *)

(** One entry per call, with the answer it got. *)
Inductive entry :=
| EWait (r : Req)
| EPoll (r : Req) (b : bool)
| ECancel (r : Req) (b : bool)
| EAddWaiter (r : Req) (sw : Switch) (b : bool)
| EDeleteWaiter (r : Req) (sw : Switch)
| ECheckError (r : Req) (o : option Err)
| ENewSwitch (sw : Switch)
| EWaitForOn (sw : Switch)
| ETimerStart (op : wait_op)
| ETimerStop (op : wait_op).

Definition entry_of {X} (c : reqE X) : X → entry :=
  match c with
  | Wait r => λ _, EWait r
  | Poll r => λ b, EPoll r b
  | Cancel r => λ b, ECancel r b
  | AddWaiter r sw => λ b, EAddWaiter r sw b
  | DeleteWaiter r sw => λ _, EDeleteWaiter r sw
  | CheckError r => λ o, ECheckError r o
  | NewSwitch => λ sw, ENewSwitch sw
  | WaitForOn sw => λ _, EWaitForOn sw
  | TimerStart op => λ _, ETimerStart op
  | TimerStop op => λ _, ETimerStop op
  end.

(** [exec t log o]: the program [t] can run to the end making exactly the
    calls of [log], in that order and with those answers, and then ends as
    [o].  Nothing is assumed of the callees. *)
Fixpoint exec {A} (t : prog A) (log : list entry) (o : outcome A) : Prop :=
  match t with
  | Ret a => log = [] ∧ o = Returned a
  | Throw e => log = [] ∧ o = Raised e
  | Vis c k => ∃ x log', log = entry_of c x :: log' ∧ exec (k x) log' o
  end.

(** The request an entry is a call on. *)
Definition entry_req (e : entry) : option Req :=
  match e with
  | EWait r | EPoll r _ | ECancel r _ | EAddWaiter r _ _
  | EDeleteWaiter r _ | ECheckError r _ => Some r
  | ENewSwitch _ | EWaitForOn _ | ETimerStart _ | ETimerStop _ => None
  end.

(** The answers of the [add_waiter] calls, of the [poll] calls and of the
    [cancel] calls of a log, and the requests its [delete_waiter] and
    [wait] calls are on, each in the order of the calls. *)
Definition add_waiter_answers (log : list entry) : list bool :=
  omap (λ e, match e with EAddWaiter _ _ b => Some b | _ => None end) log.
Definition poll_answers (log : list entry) : list bool :=
  omap (λ e, match e with EPoll _ b => Some b | _ => None end) log.
Definition cancel_answers (log : list entry) : list bool :=
  omap (λ e, match e with ECancel _ b => Some b | _ => None end) log.
Definition deleted_waiters (log : list entry) : list (Req * Switch) :=
  omap (λ e, match e with EDeleteWaiter r sw => Some (r, sw) | _ => None end) log.

Definition is_check_error (e : entry) : bool :=
  match e with ECheckError _ _ => true | _ => false end.
Definition calls_check_error (log : list entry) : bool :=
  existsb is_check_error log.

(** The logs of the loops of [wait_any]. *)
Definition registration_log (sw : Switch) (reqs : list Req) : list entry :=
  (λ r, EAddWaiter r sw false) <$> reqs.
Definition delete_log (sw : Switch) (reqs : list Req) : list entry :=
  (λ r, EDeleteWaiter r sw) <$> reqs.

(** The second loop when the first [poll] that answers true is the one of
    position [k] (none when [k] is not a position of [reqs]): before it
    every request is unregistered and polled, after it the requests are
    only unregistered. *)
Fixpoint cleanup_log (sw : Switch) (reqs : list Req) (k : nat) : list entry :=
  match reqs with
  | [] => []
  | r :: reqs' =>
      match k with
      | 0 => EDeleteWaiter r sw :: EPoll r true :: delete_log sw reqs'
      | S k' => EDeleteWaiter r sw :: EPoll r false :: cleanup_log sw reqs' k'
      end
  end.

(** The two shapes of a finished run of [wait_any].

    In the first, [add_waiter] answers true at position [i]: the requests
    before [i] were registered, and are unregistered from the nearest to
    the first; [check_error] is called on the request of [i], and the run
    returns [i] unless [check_error] throws. *)
Definition registration_path_at (reqs : list Req) (i : nat)
    (log : list entry) (o : outcome nat) : Prop :=
  ∃ sw r err,
    reqs !! i = Some r ∧
    log = ETimerStart WAIT_OP_ANY :: ENewSwitch sw ::
          registration_log sw (take i reqs) ++
          EAddWaiter r sw true ::
          delete_log sw (reverse (take i reqs)) ++
          [ECheckError r err; ETimerStop WAIT_OP_ANY] ∧
    o = match err with None => Returned i | Some e => Raised e end.

Definition registration_path (reqs : list Req) (log : list entry) (o : outcome nat) : Prop :=
  ∃ i, registration_path_at reqs i log o.

(** In the second, every [add_waiter] answers false, [wait_for_on]
    returns, and the second loop returns [k], the position of the first
    [poll] that answers true, or [reqs_end] when none does. *)
Definition wakeup_path_at (reqs : list Req) (k : nat)
    (log : list entry) (o : outcome nat) : Prop :=
  ∃ sw,
    k ≤ length reqs ∧
    log = ETimerStart WAIT_OP_ANY :: ENewSwitch sw ::
          registration_log sw reqs ++
          EWaitForOn sw ::
          cleanup_log sw reqs k ++
          [ETimerStop WAIT_OP_ANY] ∧
    o = Returned k.

Definition wakeup_path (reqs : list Req) (log : list entry) (o : outcome nat) : Prop :=
  ∃ k, wakeup_path_at reqs k log o.

(** *** The logs of [wait_all], [cancel_all] and [poll_any] *)

Definition count_true (bs : list bool) : nat :=
  length (filter (λ b, b = true) bs).

(** The log of [poll_any] when the first [poll] that answers true is the
    one of position [k] (none when [k] is not a position of [reqs]). *)
Fixpoint poll_log (reqs : list Req) (k : nat) : list entry :=
  match reqs with
  | [] => []
  | r :: reqs' =>
      match k with
      | 0 => [EPoll r true]
      | S k' => EPoll r false :: poll_log reqs' k'
      end
  end.

(** ** Interleaving semantics *)

(** The calls are run against a state.  [handle c w] is what the call [c]
    does when it runs in state [w]: its answer and the state it leaves, or
    [None] when the caller is suspended in [w] (the call can only return
    from another state).  Each call is atomic.  Between two calls of the
    program, and while it is suspended, the other parties change the state
    by the actions of [env_apply]. *)
Section Interleaving.
Context {World EnvAct : Type}.
Variable handle : ∀ X, reqE X → World → option (X * World).
Variable env_apply : EnvAct → World → World.

(** How a program has ended, if it has. *)
Definition result_of {A} (t : prog A) : option (outcome A) :=
  match t with
  | Ret a => Some (Returned a)
  | Throw e => Some (Raised e)
  | Vis _ _ => None
  end.

(** The program is suspended in its next call. *)
Definition blocked {A} (t : prog A) (w : World) : Prop :=
  match t with
  | Vis c _ => handle _ c w = None
  | _ => False
  end.

Inductive step {A} : relation (prog A * World) :=
| step_call {X} (c : reqE X) k w x w' :
    handle X c w = Some (x, w') →
    step (Vis c k, w) (k x, w')
| step_env t a w :
    step (t, w) (t, env_apply a w).

Definition env_step : relation World := λ w w', ∃ a, w' = env_apply a w.

(** The program running alone to its end; [None] when it gets suspended
    on the way. *)
Fixpoint run {A} (t : prog A) (w : World) : option (outcome A * World) :=
  match t with
  | Ret a => Some (Returned a, w)
  | Throw e => Some (Raised e, w)
  | Vis c k =>
      match handle _ c w with
      | Some (x, w') => run (k x) w'
      | None => None
      end
  end.

(** One scheduling decision: the program makes its next call (and stays
    where it is when it is suspended or has ended), or another party
    acts. *)
Inductive decision := Me | Other (a : EnvAct).

Definition sched_step {A} (d : decision) (cfg : prog A * World) : prog A * World :=
  match d, cfg with
  | Other a, (t, w) => (t, env_apply a w)
  | Me, (Vis c k, w) =>
      match handle _ c w with
      | Some (x, w') => (k x, w')
      | None => cfg
      end
  | Me, _ => cfg
  end.

Definition run_schedule {A} (ds : list decision) (cfg : prog A * World) : prog A * World :=
  foldl (λ cfg d, sched_step d cfg) cfg ds.

(** [wp B t Q w]: in every interleaving of [t] started in [w], the
    program is suspended only in states of [B], and when it has ended as
    [o] the state satisfies [Q o]. *)
Fixpoint wp {A} (B : World → Prop) (t : prog A)
    (Q : outcome A → World → Prop) (w : World) : Prop :=
  match t with
  | Ret a => ∀ w', rtc env_step w w' → Q (Returned a) w'
  | Throw e => ∀ w', rtc env_step w w' → Q (Raised e) w'
  | Vis c k =>
      ∀ w1, rtc env_step w w1 →
        match handle _ c w1 with
        | Some (x, w2) => wp B (k x) Q w2
        | None => B w1
        end
  end.

Definition leaf {A} (o : outcome A) : prog A :=
  match o with Returned a => Ret a | Raised e => Throw e end.

(** The number of turns a schedule gives to the program. *)
Fixpoint turns (ds : list decision) : nat :=
  match ds with
  | [] => 0
  | Me :: ds' => S (turns ds')
  | Other _ :: ds' => turns ds'
  end.
End Interleaving.

(** ** Requests and switches *)

(** Modelled from the spec: the class [Request] (thrill/io/request.hpp) and
    the class [onoff_switch] (thrill/common/onoff_switch.hpp) are included
    by the header but are not part of the sources at hand.  Their state and
    their methods follow the description of the specification: a request is
    [Pending] until it is completed, fails with an error or is canceled,
    and never changes afterwards; it holds the set of the switches
    registered on it, which are all set when it leaves [Pending]; a switch
    is one bit, off when created, and [wait_for_on] returns once it is
    on.  The registrations stay in the set until [delete_waiter] takes
    them out. *)
Inductive req_state :=
| Pending
| Completed
| Failed (e : Err)
| Canceled.

Record request := Request {
  state : req_state;
  started : bool;               (* the execution has begun: cancel() fails *)
  waiters : gset Switch;
}.

Record World := MkWorld {
  requests : Req → request;
  switched_on : gset Switch;
  next_switch : Switch;         (* the next switch to be created *)
}.

Definition terminal (s : req_state) : bool :=
  match s with Pending => false | _ => true end.

Definition is_terminal (w : World) (r : Req) : bool :=
  terminal (state (requests w r)).

Definition stored_error (w : World) (r : Req) : option Err :=
  match state (requests w r) with Failed e => Some e | _ => None end.

(** The request [r] leaves [Pending] for [s], and its waiters are set. *)
Definition finish (r : Req) (s : req_state) (w : World) : World :=
  let rq := requests w r in
  {| requests := <[r := Request s (started rq) (waiters rq)]> (requests w);
     switched_on := switched_on w ∪ waiters rq;
     next_switch := next_switch w |}.

Definition set_waiters (r : Req) (ws : gset Switch) (w : World) : World :=
  let rq := requests w r in
  {| requests := <[r := Request (state rq) (started rq) ws]> (requests w);
     switched_on := switched_on w;
     next_switch := next_switch w |}.

Definition try_cancel (r : Req) (w : World) : bool * World :=
  let rq := requests w r in
  if negb (terminal (state rq)) && negb (started rq)
  then (true, finish r Canceled w)
  else (false, w).

(** Modelled from the spec: the methods of [Request] and of
    [onoff_switch], which are not part of the sources at hand, each as one
    atomic action on the state.  [wait] and [wait_for_on] suspend the
    caller until the request is terminal, respectively the switch is on.
    The wait timer belongs to the statistics, which are not modelled: its
    calls leave the state as it is. *)
Definition handle (X : Type) (c : reqE X) (w : World) : option (X * World) :=
  match c in reqE X return option (X * World) with
  | Wait r => if is_terminal w r then Some (tt, w) else None
  | Poll r => Some (is_terminal w r, w)
  | Cancel r => Some (try_cancel r w)
  | AddWaiter r sw =>
      if is_terminal w r then Some (true, w)
      else Some (false, set_waiters r (waiters (requests w r) ∪ {[sw]}) w)
  | DeleteWaiter r sw =>
      Some (tt, set_waiters r (waiters (requests w r) ∖ {[sw]}) w)
  | CheckError r => Some (stored_error w r, w)
  | NewSwitch =>
      Some (next_switch w,
            {| requests := requests w;
               switched_on := switched_on w;
               next_switch := S (next_switch w) |})
  | WaitForOn sw => if bool_decide (sw ∈ switched_on w) then Some (tt, w) else None
  | TimerStart _ => Some (tt, w)
  | TimerStop _ => Some (tt, w)
  end.

(** Modelled from the spec: the other parties, which are not part of the
    sources at hand.  The execution side starts a pending request,
    completes it or fails it; another caller cancels it. *)
Inductive env_act :=
| Start (r : Req)
| Complete (r : Req)
| Fail (r : Req) (e : Err)
| CancelElsewhere (r : Req).

Definition env_apply (a : env_act) (w : World) : World :=
  match a with
  | Start r =>
      let rq := requests w r in
      if is_terminal w r then w
      else {| requests := <[r := Request (state rq) true (waiters rq)]> (requests w);
              switched_on := switched_on w;
              next_switch := next_switch w |}
  | Complete r => if is_terminal w r then w else finish r Completed w
  | Fail r e => if is_terminal w r then w else finish r (Failed e) w
  | CancelElsewhere r => (try_cancel r w).2
  end.

(** A state in which every request is pending and no switch exists. *)
Definition fresh_world : World :=
  {| requests := λ _, Request Pending false ∅;
     switched_on := ∅;
     next_switch := 0 |}.

(** The outcome of the program running alone, and of a schedule. *)
Definition outcome_of_run {A} (t : prog A) (w : World) : option (outcome A) :=
  fst <$> run handle t w.

Definition outcome_of_schedule {A} (ds : list (decision (EnvAct := env_act)))
    (t : prog A) (w : World) : option (outcome A) :=
  result_of (run_schedule handle env_apply ds (t, w)).1.

(** *** What the other parties can change *)

(** Only the switches created so far are on or registered. *)
Definition wf (w : World) : Prop :=
  (∀ s, s ∈ switched_on w → s < next_switch w) ∧
  (∀ r s, s ∈ waiters (requests w r) → s < next_switch w).

(** [evolves w w']: what holds of the states before and after any number
    of actions of the other parties.  They create no switch and change no
    registration; a terminal request stays as it is; a switch that is on
    stays on; the waiters of a request that becomes terminal are set, and
    no other switch is. *)
Record evolves (w w' : World) : Prop := Evolves {
  ev_next : next_switch w' = next_switch w;
  ev_waiters r : waiters (requests w' r) = waiters (requests w r);
  ev_state r :
    is_terminal w r = true → state (requests w' r) = state (requests w r);
  ev_on s : s ∈ switched_on w → s ∈ switched_on w';
  ev_signal r s :
    is_terminal w r = false → is_terminal w' r = true →
    s ∈ waiters (requests w r) → s ∈ switched_on w';
  ev_on_inv s :
    s ∈ switched_on w' →
    s ∈ switched_on w ∨ ∃ r, s ∈ waiters (requests w r) ∧ is_terminal w' r = true;
}.

(** ** Properties of logs and states *)

(** Every registration recorded in a log ([add_waiter] answered false) is
    followed by the [delete_waiter] of the same switch on the same
    request. *)
Definition registrations_undone (log : list entry) : Prop :=
  ∀ l1 l2 r s, log = l1 ++ EAddWaiter r s false :: l2 → EDeleteWaiter r s ∈ l2.

(** The lowest position of [reqs] whose request is terminal in [w], and
    [length reqs] when there is none. *)
Fixpoint first_terminal (w : World) (reqs : list Req) : nat :=
  match reqs with
  | [] => 0
  | r :: reqs' => if is_terminal w r then 0 else S (first_terminal w reqs')
  end.

(** [wait_any] may be suspended only while every request of the range is
    pending. *)
Definition all_pending (reqs : list Req) (w : World) : Prop :=
  ∀ r, r ∈ reqs → is_terminal w r = false.

Definition some_terminal (reqs : list Req) (w : World) : Prop :=
  ∃ r, r ∈ reqs ∧ is_terminal w r = true.

(** The position returned is the one of a request that is terminal, or
    the error raised is the one stored in a request of the range. *)
Definition ends_on_terminal (reqs : list Req) (o : outcome nat) (w : World) : Prop :=
  match o with
  | Returned p => ∃ r, reqs !! p = Some r ∧ is_terminal w r = true
  | Raised e => ∃ p r, reqs !! p = Some r ∧ state (requests w r) = Failed e
  end.

(** What [wait_any reqs], called in state [w0], has done when it has ended
    as [o] in state [w]: the registrations of every request are those of
    [w0], and it has ended on a terminal request. *)
Definition wait_any_post (reqs : list Req) (w0 : World)
    (o : outcome nat) (w : World) : Prop :=
  (∀ r, waiters (requests w r) = waiters (requests w0 r)) ∧
  ends_on_terminal reqs o w.

(** During [wait_any], called in state [w0]: the switch of the call, the
    one numbered [next_switch w0], is registered on requests of [L] only,
    and the other registrations are those of [w0]. *)
Definition registered_within (w0 : World) (L : list Req) (w : World) : Prop :=
  (∀ r s, s ≠ next_switch w0 →
          s ∈ waiters (requests w r) ↔ s ∈ waiters (requests w0 r)) ∧
  (∀ r, next_switch w0 ∈ waiters (requests w r) → r ∈ L).

(** The first loop of [wait_any], with [before] behind it: a pending
    request of [before] has the switch registered, and the switch is on
    exactly when a request of [before] is terminal. *)
Definition scan_inv (w0 : World) (before : list Req) (w : World) : Prop :=
  registered_within w0 before w ∧
  (∀ r, r ∈ before → is_terminal w r = false →
        next_switch w0 ∈ waiters (requests w r)) ∧
  (∀ r, r ∈ before → is_terminal w r = true → next_switch w0 ∈ switched_on w) ∧
  (next_switch w0 ∈ switched_on w → ∃ r, r ∈ before ∧ is_terminal w r = true).

(** Once [wait_any []] has created its switch it stands before
    [wait_for_on], and the switch is off and registered nowhere. *)
Definition waits_on_fresh_switch {A} (t : prog A) (w : World) : Prop :=
  ∃ sw k, t = Vis (WaitForOn sw) k ∧
          (sw ∉ switched_on w) ∧ ∀ r, sw ∉ waiters (requests w r).

(** ** Logs and runs taken as instances *)

(** A run of [wait_any] on four requests that returns from the first loop
    at position 2, and one on three requests that returns position 1 from
    the second loop. *)
Definition registration_scan_log : list entry :=
  [ETimerStart WAIT_OP_ANY; ENewSwitch 0;
   EAddWaiter 3 0 false; EAddWaiter 4 0 false; EAddWaiter 5 0 true;
   EDeleteWaiter 4 0; EDeleteWaiter 3 0;
   ECheckError 5 None; ETimerStop WAIT_OP_ANY].

Definition wakeup_scan_log : list entry :=
  [ETimerStart WAIT_OP_ANY; ENewSwitch 0;
   EAddWaiter 3 0 false; EAddWaiter 4 0 false; EAddWaiter 5 0 false;
   EWaitForOn 0;
   EDeleteWaiter 3 0; EPoll 3 false;
   EDeleteWaiter 4 0; EPoll 4 true;
   EDeleteWaiter 5 0;
   ETimerStop WAIT_OP_ANY].

(** The schedule of scenario B. *)
Definition schedule_B : list (decision (EnvAct := env_act)) :=
  replicate 5 Me ++ [Other (Complete 2)] ++ replicate 8 Me.

(** Scenario B, run to its end. *)
Definition run_B : prog nat * World :=
  run_schedule handle env_apply schedule_B (wait_any [0; 1; 2], fresh_world).

(** [r0] has failed and [r1] is completed; [wait_all] makes its two
    calls. *)
Definition two_terminal : World :=
  env_apply (Complete 1) (env_apply (Fail 0 7) fresh_world).

Definition run_wait_all : prog unit * World :=
  run_schedule handle env_apply [Me; Me] (wait_all [0; 1], two_terminal).

(** [r1] is completed when [wait_any] has registered its switch on [r0]
    and [r1], and not yet on [r2]. *)
Definition run_racing : prog nat * World :=
  run_schedule handle env_apply
    (replicate 4 Me ++ [Other (Complete 1)])
    (wait_any [0; 1; 2], fresh_world).

(** [wait_any] on the empty range, with requests completing and failing
    around it. *)
Definition run_empty : prog nat * World :=
  run_schedule handle env_apply
    [Me; Other (Complete 0); Me; Other (Fail 1 7); Me; Me]
    (wait_any [], fresh_world).

(** ** Further readings of a log *)

(** The switch an entry is about. *)
Definition entry_switch (e : entry) : option Switch :=
  match e with
  | EAddWaiter _ sw _ | EDeleteWaiter _ sw | ENewSwitch sw | EWaitForOn sw => Some sw
  | EWait _ | EPoll _ _ | ECancel _ _ | ECheckError _ _
  | ETimerStart _ | ETimerStop _ => None
  end.

(** The switches created in a log, and the switches waited for, in the
    order of the calls. *)
Definition switches_created (log : list entry) : list Switch :=
  omap (λ e, match e with ENewSwitch sw => Some sw | _ => None end) log.
Definition switch_waits (log : list entry) : list Switch :=
  omap (λ e, match e with EWaitForOn sw => Some sw | _ => None end) log.

(** The timer calls of a log: [true] for a start, [false] for a stop. *)
Definition timer_calls (log : list entry) : list (bool * wait_op) :=
  omap (λ e, match e with
             | ETimerStart op => Some (true, op)
             | ETimerStop op => Some (false, op)
             | _ => None
             end) log.

(** The calls [wait_any] may make on the range [reqs] with the switch
    [sw]: the timer, the creation of [sw] and the wait for it, and
    [add_waiter], [delete_waiter], [poll] and [check_error] on requests of
    the range, the first two with [sw]. *)
Definition wait_any_call (reqs : list Req) (sw : Switch) (e : entry) : Prop :=
  e = ETimerStart WAIT_OP_ANY ∨ e = ETimerStop WAIT_OP_ANY ∨
  e = ENewSwitch sw ∨ e = EWaitForOn sw ∨
  ∃ r, r ∈ reqs ∧
       ((∃ b, e = EAddWaiter r sw b) ∨ e = EDeleteWaiter r sw ∨
        (∃ b, e = EPoll r b) ∨ (∃ err, e = ECheckError r err)).

(** Every call of the log is on a request of [reqs]. *)
Definition calls_within_range (reqs : list Req) (log : list entry) : Prop :=
  ∀ e r, e ∈ log → entry_req e = Some r → r ∈ reqs.

(** ** Further properties of states, and callers *)

(** [wait_any] running alone, called in state [w0], with [before] behind
    its first loop: the switch of the call is registered on requests of
    [before] only, and nothing else has changed since the call but the
    number of the next switch. *)
Definition alone_inv (w0 : World) (before : list Req) (w : World) : Prop :=
  registered_within w0 before w ∧
  next_switch w = S (next_switch w0) ∧
  switched_on w = switched_on w0 ∧
  ∀ r, state (requests w r) = state (requests w0 r) ∧
       started (requests w r) = started (requests w0 r).

(** What [wait_any] ends with when it finds the request [r] at position
    [p]. *)
Definition found_outcome (w : World) (r : Req) (p : nat) : outcome nat :=
  match stored_error w r with
  | Some e => Raised e
  | None => Returned p
  end.

(** A request that [cancel] cannot cancel any more: it is terminal, or
    its execution has begun. *)
Definition not_cancellable (w : World) (r : Req) : Prop :=
  is_terminal w r = true ∨ started (requests w r) = true.

(** The operations composed on one range, as a caller writes them:
    [poll_any] after [wait_any], [cancel_all] twice, and [poll_any] after
    [wait_all]. *)
Definition wait_any_then_poll_any (reqs : list Req) : prog (nat * nat) :=
  p ← wait_any reqs;
  q ← poll_any reqs;
  Ret (p, q).

Definition cancel_all_twice (reqs : list Req) : prog (nat * nat) :=
  n1 ← cancel_all reqs;
  n2 ← cancel_all reqs;
  Ret (n1, n2).

Definition wait_all_then_poll_any (reqs : list Req) : prog nat :=
  wait_all reqs;;
  poll_any reqs.

(** Runs of the callers, taken as instances. *)
Definition run_wait_then_poll : prog (nat * nat) * World :=
  run_schedule handle env_apply
    (replicate 5 Me ++ [Other (Complete 2)] ++ replicate 3 Me ++
     [Other (Complete 0)] ++ replicate 7 Me)
    (wait_any_then_poll_any [0; 1; 2], fresh_world).

Definition run_cancel_twice : prog (nat * nat) * World :=
  run_schedule handle env_apply
    ([Me; Other (Start 1)] ++ replicate 6 Me)
    (cancel_all_twice [0; 1; 2], fresh_world).

Definition run_wait_any_array : prog nat * World :=
  run_schedule handle env_apply
    (replicate 4 Me ++ [Other (Complete 1)] ++ replicate 7 Me)
    (wait_any_array [0; 1; 2] 2, fresh_world).

Definition run_wait_all_then_poll : prog nat * World :=
  run_schedule handle env_apply
    ([Other (Complete 1); Me; Other (Fail 0 7)] ++ replicate 4 Me)
    (wait_all_then_poll_any [1; 0], fresh_world).

(** * Facts *)

(** ** The log semantics *)

Lemma exec_bind {A B} (t : prog A) (f : A → prog B) log o :
  exec (bind t f) log o ↔
    (∃ a log1 log2, exec t log1 (Returned a) ∧ exec (f a) log2 o ∧ log = log1 ++ log2)
    ∨ (∃ e, exec t log (Raised e) ∧ o = Raised e).
Proof.
  revert log. induction t as [a|e|X c k IH]; intros log; simpl.
  - split.
    + intros H. left. exists a, [], log. by repeat split.
    + intros [(a' & l1 & l2 & [-> Ha] & H & ->)|(e & [_ ?] & _)]; [|done].
      by simplify_eq.
  - split.
    + intros [-> ->]. right. by exists e.
    + intros [(a' & l1 & l2 & [_ ?] & _)|(e' & [-> He] & ->)]; [done|].
      by simplify_eq.
  - split.
    + intros (x & log' & -> & H). apply IH in H
        as [(a & l1 & l2 & H1 & H2 & ->)|(e & H1 & ->)].
      * left. exists a, (entry_of c x :: l1), l2. split_and!; [|done..].
        by exists x, l1.
      * right. exists e. split; [|done]. by exists x, log'.
    + intros [(a & l1 & l2 & (x & l1' & -> & H1) & H2 & ->)
             |(e & (x & log' & -> & H1) & ->)].
      * exists x, (l1' ++ l2). split; [done|]. apply IH. left. by exists a, l1', l2.
      * exists x, log'. split; [done|]. apply IH. right. by exists e.
Qed.

Lemma exec_call_bind {X B} (c : reqE X) (f : X → prog B) log o :
  exec (bind (call c) f) log o ↔ ∃ x log', log = entry_of c x :: log' ∧ exec (f x) log' o.
Proof. done. Qed.

Lemma exec_on_exit {A} op (t : prog A) log o :
  exec (on_exit op t) log o ↔ ∃ log', exec t log' o ∧ log = log' ++ [ETimerStop op].
Proof.
  revert log. induction t as [a|e|X c k IH]; intros log; simpl.
  - split.
    + intros ([] & l & -> & -> & ->). by exists [].
    + intros (l & [-> ->] & ->). by exists tt, [].
  - split.
    + intros ([] & l & -> & -> & ->). by exists [].
    + intros (l & [-> ->] & ->). by exists tt, [].
  - split.
    + intros (x & l & -> & H). apply IH in H as (l' & H & ->).
      exists (entry_of c x :: l'). split; [|done]. by exists x, l'.
    + intros (l & (x & l' & -> & H) & ->). exists x, (l' ++ [ETimerStop op]).
      split; [done|]. apply IH. by exists l'.
Qed.

(** *** The logs of [wait_all], [cancel_all] and [poll_any] *)

Lemma count_true_cons b bs :
  count_true (b :: bs) = (if b then S (count_true bs) else count_true bs).
Proof.
  unfold count_true. rewrite filter_cons. destruct b; by case_decide.
Qed.

Lemma wait_all_exec reqs log o :
  exec (wait_all reqs) log o ↔ log = EWait <$> reqs ∧ o = Returned tt.
Proof.
  revert log. induction reqs as [|r reqs IH]; intros log; simpl; [done|].
  split.
  - intros ([] & l & -> & H). apply IH in H as [-> ->]. done.
  - intros [-> ->]. exists tt, (EWait <$> reqs). split; [done|]. by apply IH.
Qed.

Lemma cancel_all_loop_exec reqs n log o :
  exec (cancel_all_loop reqs n) log o ↔
    ∃ bs, length bs = length reqs ∧ log = zip_with ECancel reqs bs ∧
          o = Returned (n + count_true bs).
Proof.
  revert n log. induction reqs as [|r reqs IH]; intros n log; simpl.
  - split.
    + intros [-> ->]. exists []. by rewrite Nat.add_0_r.
    + intros (bs & Hl & -> & ->). destruct bs; [|done]. by rewrite Nat.add_0_r.
  - split.
    + intros (b & l & -> & H). apply IH in H as (bs & Hl & -> & ->).
      exists (b :: bs). split_and!; [by simpl; rewrite Hl|done|].
      f_equal. rewrite count_true_cons. destruct b; lia.
    + intros (bs & Hl & -> & ->). destruct bs as [|b bs]; [done|].
      exists b, (zip_with ECancel reqs bs). split; [done|]. apply IH.
      exists bs. split_and!; [by simplify_eq/=|done|].
      f_equal. rewrite count_true_cons. destruct b; lia.
Qed.

Lemma poll_any_loop_exec reqs cur log o :
  exec (poll_any_loop reqs cur) log o ↔
    ∃ k, k ≤ length reqs ∧ log = poll_log reqs k ∧ o = Returned (cur + k).
Proof.
  revert cur log. induction reqs as [|r reqs IH]; intros cur log; simpl.
  - split.
    + intros [-> ->]. exists 0. by rewrite Nat.add_0_r.
    + intros (k & Hk & -> & ->). by replace k with 0 by lia; rewrite Nat.add_0_r.
  - split.
    + intros ([] & l & -> & H); simpl in H.
      * destruct H as [-> ->]. exists 0. split_and!; [lia|done|by rewrite Nat.add_0_r].
      * apply IH in H as (k & Hk & -> & ->). exists (S k).
        split_and!; [lia|done|f_equal; lia].
    + intros ([|k] & Hk & -> & ->).
      * exists true, []. simpl. by rewrite Nat.add_0_r.
      * exists false, (poll_log reqs k). split; [done|]. apply IH.
        exists k. split_and!; [lia|done|f_equal; lia].
Qed.

(** *** The logs of [wait_any] *)

Lemma wait_any_undo_while_exec sw r before log o :
  exec (r0 ← wait_any_undo_while sw r before; delete_waiter r0 sw) log o ↔
    log = delete_log sw (r :: before) ∧ o = Returned tt.
Proof.
  revert r log. induction before as [|r' before IH]; intros r log; simpl.
  - split.
    + by intros ([] & l & -> & -> & ->).
    + intros [-> ->]. by exists tt, [].
  - split.
    + intros ([] & l & -> & H). apply IH in H as [-> ->]. done.
    + intros [-> ->]. exists tt, (delete_log sw (r' :: before)).
      split; [done|]. by apply IH.
Qed.

Lemma wait_any_undo_exec sw before log o :
  exec (wait_any_undo sw before) log o ↔
    log = delete_log sw before ∧ o = Returned tt.
Proof.
  destruct before as [|r before]; [done|]. apply wait_any_undo_while_exec.
Qed.

Lemma wait_any_cleanup_found_exec sw reqs_end reqs cur result log o :
  result ≠ reqs_end →
  exec (wait_any_cleanup sw reqs_end reqs cur result) log o ↔
    log = delete_log sw reqs ∧ o = Returned result.
Proof.
  intros Hne. revert cur log.
  induction reqs as [|r reqs IH]; intros cur log; simpl; [done|].
  apply Nat.eqb_neq in Hne as ->. split.
  - intros ([] & l & -> & H). apply IH in H as [-> ->]. done.
  - intros [-> ->]. exists tt, (delete_log sw reqs). split; [done|]. by apply IH.
Qed.

Lemma wait_any_cleanup_exec sw reqs_end reqs cur log o :
  cur + length reqs = reqs_end →
  exec (wait_any_cleanup sw reqs_end reqs cur reqs_end) log o ↔
    ∃ k, k ≤ length reqs ∧ log = cleanup_log sw reqs k ∧ o = Returned (cur + k).
Proof.
  revert cur log. induction reqs as [|r reqs IH]; intros cur log Hlen; simpl in *.
  - split.
    + intros [-> ->]. exists 0. split_and!; [done..|f_equal; lia].
    + intros (k & Hk & -> & ->). split; [done|f_equal; lia].
  - rewrite Nat.eqb_refl. split.
    + intros ([] & l & -> & [] & l' & -> & H); simpl in H.
      * apply wait_any_cleanup_found_exec in H as [-> ->]; [|lia].
        exists 0. split_and!; [lia|done|f_equal; lia].
      * apply IH in H as (k & Hk & -> & ->); [|lia].
        exists (S k). split_and!; [lia|done|f_equal; lia].
    + intros ([|k] & Hk & -> & ->).
      * exists tt, (EPoll r true :: delete_log sw reqs). split; [done|].
        exists true, (delete_log sw reqs). split; [done|].
        apply wait_any_cleanup_found_exec; [lia|]. split; [done|f_equal; lia].
      * exists tt, (EPoll r false :: cleanup_log sw reqs k). split; [done|].
        exists false, (cleanup_log sw reqs k). split; [done|].
        apply IH; [lia|]. exists k. split_and!; [lia|done|f_equal; lia].
Qed.

Lemma wait_any_scan_exec sw all before reqs log o :
  exec (wait_any_scan sw all before reqs) log o ↔
    (∃ i r err,
        reqs !! i = Some r ∧
        log = registration_log sw (take i reqs) ++
              EAddWaiter r sw true ::
              delete_log sw (reverse (take i reqs) ++ before) ++
              [ECheckError r err] ∧
        o = match err with
            | None => Returned (length before + i)
            | Some e => Raised e
            end)
    ∨ (∃ k, k ≤ length all ∧
            log = registration_log sw reqs ++ EWaitForOn sw :: cleanup_log sw all k ∧
            o = Returned k).
Proof.
  revert before log. induction reqs as [|r reqs IH]; intros before log; simpl.
  - split.
    + intros ([] & l & -> & H). right.
      apply (wait_any_cleanup_exec sw (length all) all 0) in H
        as (k & Hk & -> & ->); [|done]. by exists k.
    + intros [(i & r & err & Hi & _)|(k & Hk & -> & ->)]; [done|].
      exists tt, (cleanup_log sw all k). split; [done|].
      apply (wait_any_cleanup_exec sw (length all) all 0); [done|]. by exists k.
  - split.
    + intros ([] & l & -> & H); simpl in H.
      * left. apply exec_bind in H
          as [(a & l1 & l2 & H1 & H2 & ->)|(e & H1 & _)];
          [|by apply wait_any_undo_exec in H1 as [_ ?]].
        apply wait_any_undo_exec in H1 as [-> _].
        destruct H2 as (err & l & -> & H2).
        exists 0, r, err. destruct err; destruct H2 as [-> ->];
          (split_and!; [done|done|]); [done|]. by rewrite Nat.add_0_r.
      * apply IH in H as [(i & r' & err & Hi & -> & ->)|(k & Hk & -> & ->)].
        -- left. exists (S i), r', err. split_and!; [done| |].
           ++ simpl. rewrite reverse_cons, <- !(assoc_L (++)). done.
           ++ destruct err; [done|]. f_equal/=. lia.
        -- right. by exists k.
    + intros [(i & r' & err & Hi & -> & ->)|(k & Hk & -> & ->)].
      * destruct i as [|i]; simplify_eq/=.
        -- exists true, (delete_log sw before ++ [ECheckError r' err]).
           split; [done|]. simpl. apply exec_bind. left.
           exists tt, (delete_log sw before), [ECheckError r' err].
           split_and!; [by apply wait_any_undo_exec| |done].
           exists err, []. split; [done|].
           destruct err; [done|]. simpl. by rewrite Nat.add_0_r.
        -- eexists false, _. split; [done|]. apply IH. left.
           exists i, r', err. split_and!; [done| |].
           ++ rewrite reverse_cons, <- !(assoc_L (++)). done.
           ++ destruct err; [done|]. f_equal/=. lia.
      * eexists false, _. split; [done|]. apply IH. right. by exists k.
Qed.

(** Every finished run of [wait_any] has one of the two shapes, and every
    log of these shapes is one of a run. *)
Lemma wait_any_exec reqs log o :
  exec (wait_any reqs) log o ↔ registration_path reqs log o ∨ wakeup_path reqs log o.
Proof.
  unfold wait_any, scoped_wait_timer. split.
  - intros ([] & l & -> & H). apply exec_on_exit in H as (l' & H & ->).
    destruct H as (sw & l & -> & H).
    apply wait_any_scan_exec in H as [(i & r & err & Hi & -> & ->)|(k & Hk & -> & ->)].
    + left. exists i, sw, r, err. split_and!; [done| |done].
      rewrite app_nil_r. simpl. rewrite <- !(assoc_L (++)). simpl.
      rewrite <- !(assoc_L (++)). done.
    + right. exists k, sw. split_and!; [done| |done].
      simpl. rewrite <- !(assoc_L (++)). done.
  - intros [(i & sw & r & err & Hi & -> & ->)|(k & sw & Hk & -> & ->)].
    + eexists tt, _. split; [done|]. apply exec_on_exit.
      exists (ENewSwitch sw :: registration_log sw (take i reqs) ++
              EAddWaiter r sw true :: delete_log sw (reverse (take i reqs)) ++
              [ECheckError r err]).
      split; [|by simpl; rewrite <- !(assoc_L (++)); simpl; rewrite <- !(assoc_L (++))].
      eexists sw, _. split; [done|]. apply wait_any_scan_exec. left.
      exists i, r, err. by rewrite app_nil_r.
    + eexists tt, _. split; [done|]. apply exec_on_exit.
      exists (ENewSwitch sw :: registration_log sw reqs ++
              EWaitForOn sw :: cleanup_log sw reqs k).
      split; [|by simpl; rewrite <- !(assoc_L (++))].
      eexists sw, _. split; [done|]. apply wait_any_scan_exec. right. by exists k.
Qed.

(** ** Interleaving semantics *)

Section InterleavingFacts.
Context {World EnvAct : Type}.
Variable handle : ∀ X, reqE X → World → option (X * World).
Variable env_apply : EnvAct → World → World.

Local Abbreviation blocked := (blocked handle).
Local Abbreviation step := (step handle env_apply).
Local Abbreviation env_step := (env_step env_apply).
Local Abbreviation run := (run handle).
Local Abbreviation run_schedule := (run_schedule handle env_apply).
Local Abbreviation wp := (wp handle env_apply).

Lemma wp_env {A} B (t : prog A) Q w w' :
  rtc env_step w w' → wp B t Q w → wp B t Q w'.
Proof.
  intros Hww' H. destruct t; simpl in *; intros w1 Hw1; apply H; by etrans.
Qed.

Lemma wp_step {A} B (t t' : prog A) Q w w' :
  step (t, w) (t', w') → wp B t Q w → wp B t' Q w'.
Proof.
  inversion 1 as [X c k w0 x w0' Hh|t0 a w0]; simplify_eq; intros Hwp.
  - specialize (Hwp w (rtc_refl _ _)). simpl in Hwp. by rewrite Hh in Hwp.
  - eapply wp_env; [|done]. apply rtc_once. by exists a.
Qed.

Lemma wp_steps {A} B (t t' : prog A) Q w w' :
  rtc step (t, w) (t', w') → wp B t Q w → wp B t' Q w'.
Proof.
  remember (t, w) as cfg eqn:E1. remember (t', w') as cfg' eqn:E2.
  intros Hsteps. revert t w E1.
  induction Hsteps as [|cfg [t1 w1] cfg' Hs _ IH]; intros t w E1 Hwp; simplify_eq.
  - done.
  - eapply IH; [done..|]. by eapply wp_step.
Qed.

(** What [wp] says about the configurations that can be reached. *)
Lemma wp_adequate {A} B (t t' : prog A) Q w w' :
  wp B t Q w → rtc step (t, w) (t', w') →
  (∀ o, result_of t' = Some o → Q o w') ∧ (blocked t' w' → B w').
Proof.
  intros Hwp Hsteps. eapply wp_steps in Hwp; [|done].
  split.
  - intros o Ho. destruct t'; simplify_eq/=; by apply Hwp.
  - intros Hb. destruct t'; simpl in *; [done..|].
    specialize (Hwp w' (rtc_refl _ _)). by rewrite Hb in Hwp.
Qed.

(** When the states in which the program may be suspended are excluded
    by a condition [G] that its own calls keep, the program started in a
    state of [G] runs alone to its end. *)
Lemma wp_run {A} B (G : World → Prop) (t : prog A) Q w :
  (∀ w, B w → G w → False) →
  (∀ X (c : reqE X) w x w', handle X c w = Some (x, w') → G w → G w') →
  wp B t Q w → G w →
  ∃ o w', run t w = Some (o, w') ∧ Q o w'.
Proof.
  intros HBG Hkeep. revert w. induction t as [a|e|X c k IH]; intros w Hwp HG; simpl in *.
  - eexists _, _. split; [done|]. by apply Hwp.
  - eexists _, _. split; [done|]. by apply Hwp.
  - specialize (Hwp w (rtc_refl _ _)).
    destruct (handle X c w) as [[x w2]|] eqn:Hh.
    + eapply IH; [done|]. by eapply Hkeep.
    + destruct (HBG w Hwp HG).
Qed.

Lemma wp_mono {A} (B B' : World → Prop) (t : prog A) (Q Q' : outcome A → World → Prop) w :
  (∀ w, B w → B' w) → (∀ o w, Q o w → Q' o w) →
  wp B t Q w → wp B' t Q' w.
Proof.
  intros HB HQ. revert w. induction t as [a|e|X c k IH]; intros w Hwp; simpl in *.
  - intros w' Hw'. by apply HQ, Hwp.
  - intros w' Hw'. by apply HQ, Hwp.
  - intros w1 Hw1. specialize (Hwp w1 Hw1).
    destruct (handle X c w1) as [[x w2]|]; [by apply IH|by apply HB].
Qed.

Lemma wp_bind {A C} B (t : prog A) (f : A → prog C) Q w :
  wp B t (λ o w', match o with
                  | Returned a => wp B (f a) Q w'
                  | Raised e => Q (Raised e) w'
                  end) w →
  wp B (bind t f) Q w.
Proof.
  revert w. induction t as [a|e|X c k IH]; intros w Hwp; simpl in *.
  - by apply Hwp.
  - done.
  - intros w1 Hw1. specialize (Hwp w1 Hw1).
    destruct (handle X c w1) as [[x w2]|]; [by apply IH|done].
Qed.

Lemma wp_on_exit {A} B op (t : prog A) Q w :
  wp B t (λ o w', wp B (Vis (TimerStop op) (λ _, leaf o)) Q w') w →
  wp B (on_exit op t) Q w.
Proof.
  revert w. induction t as [a|e|X c k IH]; intros w Hwp; simpl in *.
  - intros w1 Hw1. by apply (Hwp w1 Hw1 w1).
  - intros w1 Hw1. by apply (Hwp w1 Hw1 w1).
  - intros w1 Hw1. specialize (Hwp w1 Hw1).
    destruct (handle X c w1) as [[x w2]|]; [by apply IH|done].
Qed.

(** The two ways of a step. *)
Lemma step_inv {A} (cfg cfg' : prog A * World) :
  step cfg cfg' →
  (∃ a, cfg' = (cfg.1, env_apply a cfg.2)) ∨
  match cfg.1 with
  | Vis c k => ∃ x w', handle _ c cfg.2 = Some (x, w') ∧ cfg' = (k x, w')
  | _ => False
  end.
Proof. intros []; simpl; eauto. Qed.

Lemma wp_call {A X} B (c : reqE X) (k : X → prog A) Q w :
  (∀ w1, rtc env_step w w1 →
     match handle _ c w1 with
     | Some (x, w2) => wp B (k x) Q w2
     | None => B w1
     end) →
  wp B (Vis c k) Q w.
Proof. done. Qed.

Lemma wp_end {A} B (o : outcome A) (Q : outcome A → World → Prop) w :
  (∀ w1, rtc env_step w w1 → Q o w1) → wp B (leaf o) Q w.
Proof. by destruct o. Qed.

Lemma run_bind {A C} (t : prog A) (f : A → prog C) w a w' :
  run t w = Some (Returned a, w') → run (bind t f) w = run (f a) w'.
Proof.
  revert w. induction t as [a'|e|X c k IH]; intros w Ht; simpl in *.
  - by simplify_eq.
  - done.
  - destruct (handle X c w) as [[x w2]|]; [by eapply IH|done].
Qed.

Lemma calls_within_mono {A} n m (t : prog A) :
  n ≤ m → calls_within n t → calls_within m t.
Proof.
  revert n m. induction t as [a|e|X c k IH]; intros n m Hnm; simpl; [done..|].
  destruct n as [|n]; [done|]. destruct m as [|m]; [lia|].
  intros Hk x. apply (IH x n m); [lia|done].
Qed.

Lemma calls_within_bind {A C} n m (t : prog A) (f : A → prog C) :
  calls_within n t → (∀ a, calls_within m (f a)) → calls_within (n + m) (bind t f).
Proof.
  revert n. induction t as [a|e|X c k IH]; intros n Ht Hf; simpl.
  - eapply calls_within_mono; [|apply Hf]. lia.
  - done.
  - destruct n as [|n]; [done|]. simpl. intros x. by apply IH.
Qed.

Lemma calls_within_on_exit {A} n op (t : prog A) :
  calls_within n t → calls_within (S n) (on_exit op t).
Proof.
  revert n. induction t as [a|e|X c k IH]; intros n Ht; simpl; [done..|].
  destruct n as [|n]; [done|]. intros x. by apply IH.
Qed.

(** Progress under a schedule.  When the states in which the program may
    be suspended are excluded by a condition [G] that every step keeps, a
    program that ends within [n] calls, started in a state of [G], has
    ended once the schedule has given it [n] turns. *)
Lemma wp_schedule {A} B (G : World → Prop) (Q : outcome A → World → Prop) ds n
    (t : prog A) w :
  (∀ w, B w → G w → False) →
  (∀ X (c : reqE X) w x w', handle X c w = Some (x, w') → G w → G w') →
  (∀ a w, G w → G (env_apply a w)) →
  calls_within n t → wp B t Q w → G w → n ≤ turns ds →
  ∃ o, result_of (run_schedule ds (t, w)).1 = Some o ∧
       Q o (run_schedule ds (t, w)).2.
Proof.
  intros HBG Hcall Henv. revert n t w.
  induction ds as [|d ds IH]; intros n t w Hn Hwp HG Hturns; simpl in *.
  - destruct t as [a|e|X c k]; simpl in *.
    + exists (Returned a). split; [done|]. by apply Hwp.
    + exists (Raised e). split; [done|]. by apply Hwp.
    + destruct n; [done|lia].
  - unfold run_schedule. simpl. destruct d as [|a]; simpl.
    + destruct t as [r|e|X c k]; simpl in *.
      * apply (IH 0); [done..|lia].
      * apply (IH 0); [done..|lia].
      * destruct n as [|n]; [done|].
        pose proof (Hwp w (rtc_refl _ _)) as Hw.
        destruct (handle X c w) as [[x w2]|] eqn:Hh; [|destruct (HBG w Hw HG)].
        apply (IH n); [done|done|by eapply Hcall|lia].
    + apply (IH n); [done| |by apply Henv|done].
      eapply wp_env; [|done]. apply rtc_once. by exists a.
Qed.

Lemma calls_within_steps {A} n (t t' : prog A) w w' :
  rtc step (t, w) (t', w') → calls_within n t → calls_within n t'.
Proof.
  remember (t, w) as cfg eqn:E1. remember (t', w') as cfg' eqn:E2.
  intros Hsteps. revert t w E1.
  induction Hsteps as [|cfg [t1 w1] cfg' Hs _ IH]; intros t w E1 Hn; simplify_eq.
  - done.
  - eapply IH; [done..|].
    apply step_inv in Hs as [(a & [= -> ->])|Hs]; [done|]. simpl in Hs.
    destruct t as [| |X c k]; [done..|]. destruct Hs as (x & w2 & _ & [= -> ->]).
    destruct n as [|n]; [done|]. simpl in Hn.
    eapply calls_within_mono; [|apply Hn]. lia.
Qed.

(** Every interleaving that ends has a log: what is proved of all the
    logs of a program holds of all its interleavings, over any state. *)
Lemma steps_exec {A} (t t' : prog A) w w' o :
  rtc step (t, w) (t', w') → result_of t' = Some o → ∃ log, exec t log o.
Proof.
  remember (t, w) as cfg eqn:E1. remember (t', w') as cfg' eqn:E2.
  intros Hsteps. revert t w E1.
  induction Hsteps as [|cfg [t1 w1] cfg' Hs _ IH]; intros t w E1 Ho; simplify_eq.
  - exists []. by destruct t; simplify_eq/=.
  - destruct (IH eq_refl t1 w1 eq_refl Ho) as [log Hlog].
    apply step_inv in Hs as [(a & [= -> ->])|Hs]; [by exists log|]. simpl in Hs.
    destruct t as [| |X c k]; [done..|]. destruct Hs as (x & w2 & _ & [= -> ->]).
    exists (entry_of c x :: log). by exists x, log.
Qed.

(** The runs of [run_schedule] are interleavings. *)
Lemma run_schedule_steps {A} ds (cfg : prog A * World) :
  rtc step cfg (run_schedule ds cfg).
Proof.
  revert cfg. induction ds as [|d ds IH]; intros cfg; [done|].
  unfold run_schedule. simpl. etrans; [|apply IH].
  destruct cfg as [t w]. destruct d as [|a]; simpl.
  - destruct t as [| |X c k]; try done.
    destruct (handle X c w) as [[x w']|] eqn:Hh; [|done].
    apply rtc_once. by constructor.
  - apply rtc_once. constructor.
Qed.
End InterleavingFacts.

Arguments wp : simpl never.

(** *** The scenarios of the specification *)

(** A: [r1] is completed before the call; no suspension. *)
Example scenario_A :
  outcome_of_run (wait_any [0; 1; 2]) (env_apply (Complete 1) fresh_world)
  = Some (Returned 1).
Proof. vm_compute. reflexivity. Qed.

(** B: all pending at the call; the program is suspended after its five
    first calls, [r2] is completed, and the program goes on to its end in
    eight more calls.  Left alone it stays suspended. *)
Example scenario_B :
  outcome_of_schedule (replicate 5 Me ++ [Other (Complete 2)] ++ replicate 8 Me)
    (wait_any [0; 1; 2]) fresh_world
  = Some (Returned 2)
  ∧ outcome_of_schedule (replicate 20 Me) (wait_any [0; 1; 2]) fresh_world = None.
Proof. vm_compute. done. Qed.

(** C: [r0] and [r2] are both completed while the program is suspended:
    the second loop returns position 0; when only [r2] is completed by the
    time [r0] is polled, and [r0] just after, it returns position 2. *)
Example scenario_C :
  outcome_of_schedule
    (replicate 5 Me ++ [Other (Complete 2); Other (Complete 0)] ++ replicate 8 Me)
    (wait_any [0; 1; 2]) fresh_world
  = Some (Returned 0)
  ∧ outcome_of_schedule
      (replicate 5 Me ++ [Other (Complete 2)] ++ replicate 3 Me ++
       [Other (Complete 0)] ++ replicate 5 Me)
      (wait_any [0; 1; 2]) fresh_world
    = Some (Returned 2).
Proof. vm_compute. done. Qed.

(** D: [r0] is pending and not started, [r1] is completed. *)
Example scenario_D :
  let w := env_apply (Complete 1) fresh_world in
  (λ '(o, w'), (o, is_terminal w' 1)) <$> run handle (cancel_all [0; 1]) w
  = Some (Returned 1, true).
Proof. vm_compute. reflexivity. Qed.

(** E: [r0] has failed with the error 7. *)
Example scenario_E :
  outcome_of_run (wait_any [0]) (env_apply (Fail 0 7) fresh_world)
  = Some (Raised 7).
Proof. vm_compute. reflexivity. Qed.

(** The same failure met by the second loop is not raised. *)
Example scenario_E_after_wakeup :
  outcome_of_schedule (replicate 3 Me ++ [Other (Fail 0 7)] ++ replicate 4 Me)
    (wait_any [0]) fresh_world
  = Some (Returned 0).
Proof. vm_compute. reflexivity. Qed.

(** *** What the other parties can change *)

Lemma evolves_terminal w w' r :
  evolves w w' → is_terminal w r = true → is_terminal w' r = true.
Proof.
  intros Hev Ht. unfold is_terminal in *. by rewrite (ev_state _ _ Hev r Ht).
Qed.

Lemma evolves_pending w w' r :
  evolves w w' → is_terminal w' r = false → is_terminal w r = false.
Proof.
  intros Hev Hp. destruct (is_terminal w r) eqn:Ht; [|done].
  by rewrite (evolves_terminal _ _ _ Hev Ht) in Hp.
Qed.

Lemma evolves_refl w : evolves w w.
Proof. split; eauto; congruence. Qed.

Lemma evolves_trans w1 w2 w3 : evolves w1 w2 → evolves w2 w3 → evolves w1 w3.
Proof.
  intros H12 H23. split.
  - by rewrite (ev_next _ _ H23), (ev_next _ _ H12).
  - intros r. by rewrite (ev_waiters _ _ H23), (ev_waiters _ _ H12).
  - intros r Ht. rewrite (ev_state _ _ H23), (ev_state _ _ H12); eauto using evolves_terminal.
  - intros s Hs. by apply (ev_on _ _ H23), (ev_on _ _ H12).
  - intros r s Hp Ht Hs. destruct (is_terminal w2 r) eqn:Ht2.
    + by eapply (ev_on _ _ H23), (ev_signal _ _ H12).
    + eapply (ev_signal _ _ H23); [done..|]. by rewrite (ev_waiters _ _ H12).
  - intros s Hs. apply (ev_on_inv _ _ H23) in Hs as [Hs|(r & Hs & Ht)].
    + apply (ev_on_inv _ _ H12) in Hs as [Hs|(r & Hs & Ht)]; [by left|].
      right. exists r. eauto using evolves_terminal.
    + right. exists r. by rewrite <-(ev_waiters _ _ H12).
Qed.

Lemma finish_evolves r s w :
  terminal s = true → is_terminal w r = false → evolves w (finish r s w).
Proof.
  intros Hs Hp. unfold is_terminal in *. split; simpl.
  - done.
  - intros r'. destruct (decide (r = r')) as [->|];
      [by rewrite fn_lookup_insert|by rewrite fn_lookup_insert_ne].
  - intros r' Ht. unfold is_terminal in Ht. destruct (decide (r = r')) as [->|];
      [congruence|by rewrite fn_lookup_insert_ne].
  - set_solver.
  - intros r' s'. unfold is_terminal; simpl. destruct (decide (r = r')) as [->|].
    + set_solver.
    + rewrite fn_lookup_insert_ne by done. congruence.
  - intros s' [Hs'|Hs']%elem_of_union; [by left|]. right. exists r.
    split; [done|]. unfold is_terminal; simpl. by rewrite fn_lookup_insert.
Qed.

Lemma try_cancel_evolves r w : evolves w (try_cancel r w).2.
Proof.
  unfold try_cancel.
  destruct (terminal (state (requests w r))) eqn:Ht; simpl; [apply evolves_refl|].
  destruct (started (requests w r)); simpl; [apply evolves_refl|].
  by apply finish_evolves.
Qed.

Lemma env_apply_evolves a w : evolves w (env_apply a w).
Proof.
  destruct a as [r|r|r e|r]; simpl.
  - destruct (is_terminal w r) eqn:Ht; [apply evolves_refl|].
    unfold is_terminal in *. split; simpl; eauto.
    + intros r'. destruct (decide (r = r')) as [->|];
        [by rewrite fn_lookup_insert|by rewrite fn_lookup_insert_ne].
    + intros r' _. destruct (decide (r = r')) as [->|];
        [by rewrite fn_lookup_insert|by rewrite fn_lookup_insert_ne].
    + intros r' s. unfold is_terminal; simpl. destruct (decide (r = r')) as [->|].
      * rewrite fn_lookup_insert. simpl. congruence.
      * rewrite fn_lookup_insert_ne by done. congruence.
  - destruct (is_terminal w r) eqn:Ht; [apply evolves_refl|by apply finish_evolves].
  - destruct (is_terminal w r) eqn:Ht; [apply evolves_refl|by apply finish_evolves].
  - apply try_cancel_evolves.
Qed.

Lemma env_apply_terminal a w r :
  is_terminal w r = true → is_terminal (env_apply a w) r = true.
Proof. apply evolves_terminal, env_apply_evolves. Qed.

Lemma env_steps_evolves w w' :
  rtc (env_step env_apply) w w' → evolves w w'.
Proof.
  induction 1 as [|w1 w2 w3 [a ->] _ IH]; [apply evolves_refl|].
  eapply evolves_trans; [apply env_apply_evolves|done].
Qed.

(** The calls of the program keep a terminal request as it is. *)
Lemma handle_state X (c : reqE X) w x w' r :
  handle X c w = Some (x, w') → is_terminal w r = true →
  state (requests w' r) = state (requests w r).
Proof.
  intros Hh Ht. destruct c; simpl in Hh; repeat case_match; simplify_eq/=; try done.
  - pose proof (try_cancel_evolves r0 w) as Hev. rewrite Hh in Hev.
    by apply (ev_state _ _ Hev).
  - destruct (decide (r0 = r)) as [->|];
      [by rewrite fn_lookup_insert|by rewrite fn_lookup_insert_ne].
  - destruct (decide (r0 = r)) as [->|];
      [by rewrite fn_lookup_insert|by rewrite fn_lookup_insert_ne].
Qed.

Lemma handle_terminal X (c : reqE X) w x w' r :
  handle X c w = Some (x, w') → is_terminal w r = true → is_terminal w' r = true.
Proof.
  intros Hh Ht. unfold is_terminal in *. by rewrite (handle_state _ _ _ _ _ _ Hh Ht).
Qed.

(** ** [wait_any] in every interleaving *)

Lemma is_terminal_set_waiters r ws w r' :
  is_terminal (set_waiters r ws w) r' = is_terminal w r'.
Proof.
  unfold is_terminal. simpl. destruct (decide (r = r')) as [->|];
    [by rewrite fn_lookup_insert|by rewrite fn_lookup_insert_ne].
Qed.

Section WaitAnyInterleaved.
Variable reqs : list Req.
Variable w0 : World.
Hypothesis Hwf : wf w0.

(** The switch of the call. *)
Local Abbreviation sw := (next_switch w0).
Local Abbreviation registered_within := (registered_within w0).
Local Abbreviation scan_inv := (scan_inv w0).

Lemma sw_fresh r : sw ∉ waiters (requests w0 r).
Proof. intros Hs. apply Hwf in Hs. lia. Qed.

Lemma sw_off : sw ∉ switched_on w0.
Proof. intros Hs. apply Hwf in Hs. lia. Qed.

Lemma registered_within_evolves L w w' :
  evolves w w' → registered_within L w → registered_within L w'.
Proof.
  intros Hev [Hothers Hsw]. split.
  - intros r s Hne. rewrite (ev_waiters _ _ Hev). by apply Hothers.
  - intros r. rewrite (ev_waiters _ _ Hev). apply Hsw.
Qed.

Lemma scan_inv_evolves before w w' :
  evolves w w' → scan_inv before w → scan_inv before w'.
Proof.
  intros Hev (Hreg & Hpend & Hterm & Hon). split_and!.
  - by eapply registered_within_evolves.
  - intros r Hr Hp. rewrite (ev_waiters _ _ Hev).
    eauto using evolves_pending.
  - intros r Hr Ht. destruct (is_terminal w r) eqn:Ht0.
    + by eapply (ev_on _ _ Hev), Hterm.
    + eapply (ev_signal _ _ Hev); eauto.
  - intros Hs. apply (ev_on_inv _ _ Hev) in Hs as [Hs|(r & Hs & Ht)].
    + destruct (Hon Hs) as (r & Hr & Ht). exists r. eauto using evolves_terminal.
    + exists r. split; [|done]. by apply Hreg.
Qed.

Lemma registered_within_delete r L w :
  registered_within (r :: L) w →
  registered_within L (set_waiters r (waiters (requests w r) ∖ {[sw]}) w).
Proof.
  intros [Hothers Hsw]. split; simpl.
  - intros r' s Hne. destruct (decide (r = r')) as [->|].
    + rewrite fn_lookup_insert. simpl. rewrite <-Hothers by done. set_solver.
    + rewrite fn_lookup_insert_ne by done. by apply Hothers.
  - intros r'. destruct (decide (r = r')) as [->|].
    + rewrite fn_lookup_insert. simpl. set_solver.
    + rewrite fn_lookup_insert_ne by done. intros Hs%Hsw. set_solver.
Qed.

Lemma scan_inv_add r before w :
  is_terminal w r = false →
  scan_inv before w →
  scan_inv (r :: before) (set_waiters r (waiters (requests w r) ∪ {[sw]}) w).
Proof.
  intros Hp ([Hothers Hsw] & Hpend & Hterm & Hon).
  assert (Hstate : ∀ r', is_terminal
            (set_waiters r (waiters (requests w r) ∪ {[sw]}) w) r' = is_terminal w r').
  { intros r'. unfold is_terminal. simpl. destruct (decide (r = r')) as [->|];
      [by rewrite fn_lookup_insert|by rewrite fn_lookup_insert_ne]. }
  split_and!.
  - split; simpl.
    + intros r' s Hne. destruct (decide (r = r')) as [->|].
      * rewrite fn_lookup_insert. simpl. rewrite <-Hothers by done. set_solver.
      * rewrite fn_lookup_insert_ne by done. by apply Hothers.
    + intros r'. destruct (decide (r = r')) as [->|]; [set_solver|].
      rewrite fn_lookup_insert_ne by done. intros Hs%Hsw. set_solver.
  - intros r' Hr'. rewrite Hstate. intros Hp'. simpl.
    destruct (decide (r = r')) as [->|].
    + rewrite fn_lookup_insert. simpl. set_solver.
    + rewrite fn_lookup_insert_ne by done. apply Hpend; [set_solver|done].
  - intros r' Hr'. rewrite Hstate. intros Ht. simpl.
    apply (Hterm r'); [|done]. apply elem_of_cons in Hr' as [->|]; [congruence|done].
  - simpl. intros Hs. destruct (Hon Hs) as (r' & Hr' & Ht).
    exists r'. rewrite Hstate. set_solver.
Qed.
Local Abbreviation WP := (wp handle env_apply (all_pending reqs)).

Lemma wp_vis {A X} (c : reqE X) (k : X → prog A) Q w :
  (∀ w1, evolves w w1 →
     match handle X c w1 with
     | Some (x, w2) => WP (k x) Q w2
     | None => all_pending reqs w1
     end) →
  WP (Vis c k) Q w.
Proof. intros H w1 Hw1. by apply H, env_steps_evolves. Qed.

Lemma wp_leaf {A} (o : outcome A) (Q : outcome A → World → Prop) w :
  (∀ w1, evolves w w1 → Q o w1) → WP (leaf o) Q w.
Proof. intros H. destruct o; intros w1 Hw1; by apply H, env_steps_evolves. Qed.

Lemma wait_any_post_evolves o w w' :
  evolves w w' → wait_any_post reqs w0 o w → wait_any_post reqs w0 o w'.
Proof.
  intros Hev [Hw Ho]. split.
  - intros r. by rewrite (ev_waiters _ _ Hev).
  - destruct o as [p|e].
    + destruct Ho as (r & Hr & Ht). exists r. eauto using evolves_terminal.
    + destruct Ho as (p & r & Hr & Hs). exists p, r. split; [done|].
      rewrite (ev_state _ _ Hev); [done|]. unfold is_terminal. by rewrite Hs.
Qed.

(** Once the switch is registered nowhere, the registrations are those
    of [w0]. *)
Lemma registered_within_nil w r :
  registered_within [] w → waiters (requests w r) = waiters (requests w0 r).
Proof.
  intros [Hothers Hsw]. apply set_eq. intros s.
  destruct (decide (s = sw)) as [->|Hne]; [|by apply Hothers].
  split.
  - intros Hs%Hsw. by apply elem_of_nil in Hs.
  - intros Hs. by apply sw_fresh in Hs.
Qed.

(** The undoing of the registrations, for any fact [P] of the state
    that the other parties and [delete_waiter] keep. *)
Lemma wait_any_undo_while_wp (P : World → Prop) r before
    (Q : outcome unit → World → Prop) w :
  (∀ w w', evolves w w' → P w → P w') →
  (∀ w r, P w → P (set_waiters r (waiters (requests w r) ∖ {[sw]}) w)) →
  (∀ w, registered_within [] w → P w → Q (Returned tt) w) →
  registered_within (r :: before) w → P w →
  WP (r0 ← wait_any_undo_while sw r before; delete_waiter r0 sw) Q w.
Proof.
  intros HPev HPdel HQ. revert r w.
  induction before as [|r' before IH]; intros r w Hreg HP; simpl.
  - apply wp_vis. intros w1 Hw1. simpl.
    apply (wp_leaf (Returned tt)). intros w2 Hw2. apply HQ.
    + eapply registered_within_evolves; [done|].
      apply registered_within_delete. by eapply registered_within_evolves.
    + eapply HPev; [done|]. apply HPdel. by eapply HPev.
  - apply wp_vis. intros w1 Hw1. simpl. apply IH.
    + apply registered_within_delete. by eapply registered_within_evolves.
    + apply HPdel. by eapply HPev.
Qed.

Lemma wait_any_undo_wp (P : World → Prop) before
    (Q : outcome unit → World → Prop) w :
  (∀ w w', evolves w w' → P w → P w') →
  (∀ w r, P w → P (set_waiters r (waiters (requests w r) ∖ {[sw]}) w)) →
  (∀ w, registered_within [] w → P w → Q (Returned tt) w) →
  registered_within before w → P w →
  WP (wait_any_undo sw before) Q w.
Proof.
  intros HPev HPdel HQ Hreg HP. destruct before as [|r before].
  - apply (wp_leaf (Returned tt)). intros w1 Hw1. apply HQ.
    + by eapply registered_within_evolves.
    + by eapply HPev.
  - by eapply wait_any_undo_while_wp.
Qed.
(** The second loop: while nothing is found a terminal request is still
    ahead, and what is found is terminal. *)
Lemma wait_any_cleanup_wp rest cur result w :
  drop cur reqs = rest →
  registered_within rest w →
  (result = length reqs → some_terminal rest w) →
  (result ≠ length reqs → ∃ r, reqs !! result = Some r ∧ is_terminal w r = true) →
  WP (wait_any_cleanup sw (length reqs) rest cur result) (wait_any_post reqs w0) w.
Proof.
  revert cur result w.
  induction rest as [|r rest IH]; intros cur result w Hdrop Hreg Hnone Hfound; simpl.
  - apply (wp_leaf (Returned result)). intros w1 Hw1. split.
    + intros r. eapply registered_within_nil, registered_within_evolves; eauto.
    + destruct (decide (result = length reqs)) as [Heq|Hne].
      * destruct (Hnone Heq) as (r & Hr & _). by apply elem_of_nil in Hr.
      * destruct (Hfound Hne) as (r & Hr & Ht). exists r. eauto using evolves_terminal.
  - assert (Hcur : reqs !! cur = Some r).
    { rewrite <-(Nat.add_0_r cur), <-lookup_drop, Hdrop. done. }
    assert (Hlt : cur < length reqs) by (by eapply lookup_lt_Some).
    assert (Hdrop' : drop (S cur) reqs = rest).
    { replace (S cur) with (cur + 1) by lia. by rewrite <-drop_drop, Hdrop. }
    apply wp_vis. intros w1 Hw1. simpl.
    set (w2 := set_waiters r _ w1).
    assert (Hreg2 : registered_within rest w2).
    { apply registered_within_delete. by eapply registered_within_evolves. }
    assert (Hkeep : ∀ r', is_terminal w r' = true → is_terminal w2 r' = true).
    { intros r' Ht. unfold w2. rewrite is_terminal_set_waiters.
      eauto using evolves_terminal. }
    destruct (Nat.eqb_spec result (length reqs)) as [Heq|Hne]; simpl.
    + apply wp_vis. intros w3 Hw3. simpl. apply IH.
      * done.
      * by eapply registered_within_evolves.
      * destruct (is_terminal w3 r) eqn:Ht3; [lia|]. intros _.
        destruct (Hnone Heq) as (r' & Hr' & Ht'). exists r'.
        assert (is_terminal w3 r' = true) by eauto using evolves_terminal.
        split; [|done]. apply elem_of_cons in Hr' as [->|]; [congruence|done].
      * destruct (is_terminal w3 r) eqn:Ht3; [|done]. intros _. by exists r.
    + apply IH.
      * done.
      * done.
      * done.
      * intros _. destruct (Hfound Hne) as (r' & Hr' & Ht'). exists r'. eauto.
Qed.

(** The first loop. *)
Lemma wait_any_scan_wp before rest w :
  reqs = reverse before ++ rest →
  scan_inv before w →
  WP (wait_any_scan sw reqs before rest) (wait_any_post reqs w0) w.
Proof.
  revert before w.
  induction rest as [|r rest IH]; intros before w Hreqs Hinv; simpl.
  - rewrite app_nil_r in Hreqs.
    assert (Hin : ∀ r, r ∈ before ↔ r ∈ reqs).
    { intros r. by rewrite Hreqs, elem_of_reverse. }
    apply wp_vis. intros w1 Hw1. simpl.
    apply (scan_inv_evolves _ _ _ Hw1) in Hinv as ([Hothers Hsw] & Hpend & Hterm & Hon).
    case_bool_decide as Hs.
    + apply wait_any_cleanup_wp.
      * done.
      * split; [done|]. intros r Hr. by apply Hin, Hsw.
      * intros _. destruct (Hon Hs) as (r & Hr & Ht). exists r. by rewrite <-Hin.
      * done.
    + intros r Hr%Hin. destruct (is_terminal w1 r) eqn:Ht; [|done].
      destruct Hs. by eapply Hterm.
  - assert (Hpos : reqs !! length before = Some r).
    { rewrite Hreqs. apply list_lookup_middle. by rewrite length_reverse. }
    apply wp_vis. intros w1 Hw1. simpl.
    apply (scan_inv_evolves _ _ _ Hw1) in Hinv.
    destruct (is_terminal w1 r) eqn:Ht; simpl.
    + apply wp_bind.
      apply (wait_any_undo_wp (λ w, is_terminal w r = true)).
      * intros w2 w3 Hw3 Ht2. eauto using evolves_terminal.
      * intros w2 r' Ht2. by rewrite is_terminal_set_waiters.
      * intros w2 Hreg2 Ht2. simpl. apply wp_vis. intros w3 Hw3. simpl.
        apply (registered_within_evolves _ _ _ Hw3) in Hreg2.
        destruct (stored_error w3 r) as [e|] eqn:He; simpl.
        -- apply (wp_leaf (Raised e)). intros w4 Hw4.
           eapply wait_any_post_evolves; [done|]. split.
           ++ intros r'. by apply registered_within_nil.
           ++ exists (length before), r. split; [done|].
              unfold stored_error in He. by destruct (state (requests w3 r)); simplify_eq.
        -- apply (wp_leaf (Returned (length before))). intros w4 Hw4.
           eapply wait_any_post_evolves; [done|]. split.
           ++ intros r'. by apply registered_within_nil.
           ++ exists r. eauto using evolves_terminal.
      * apply Hinv.
      * done.
    + apply IH.
      * by rewrite reverse_cons, <-(assoc_L (++)).
      * by apply scan_inv_add.
Qed.

(** [wait_any] in every interleaving: it is suspended only while every
    request of the range is pending, and when it ends [wait_any_post]
    holds. *)
Lemma wait_any_wp :
  WP (wait_any reqs) (wait_any_post reqs w0) w0.
Proof.
  unfold wait_any, scoped_wait_timer.
  apply wp_vis. intros w1 Hw1. cbn [handle]. apply wp_on_exit.
  eapply wp_mono with (Q := wait_any_post reqs w0); [done| |].
  { intros o w Ho. apply wp_vis. intros w2 Hw2. simpl.
    apply wp_leaf. intros w3 Hw3.
    eauto using wait_any_post_evolves, evolves_trans. }
  simpl. apply wp_vis. intros w2 Hw2. simpl.
  assert (Hev : evolves w0 w2) by eauto using evolves_trans.
  rewrite (ev_next _ _ Hev). apply wait_any_scan_wp; [done|].
  split_and!.
  - split; simpl.
    + intros r s _. by rewrite (ev_waiters _ _ Hev).
    + intros r. rewrite (ev_waiters _ _ Hev). intros Hs. by apply sw_fresh in Hs.
  - intros r Hr. by apply elem_of_nil in Hr.
  - intros r Hr. by apply elem_of_nil in Hr.
  - simpl. intros Hs. apply (ev_on_inv _ _ Hev) in Hs as [Hs|(r & Hs & _)].
    + by apply sw_off in Hs.
    + by apply sw_fresh in Hs.
Qed.
End WaitAnyInterleaved.

(** ** What the logs of [wait_any] say *)

Lemma add_waiter_answers_registration_log sw reqs :
  add_waiter_answers (registration_log sw reqs) = replicate (length reqs) false.
Proof. induction reqs as [|r reqs IH]; [done|]. simpl. by f_equal. Qed.

Lemma add_waiter_answers_delete_log sw reqs :
  add_waiter_answers (delete_log sw reqs) = [].
Proof. by induction reqs. Qed.

Lemma add_waiter_answers_cleanup_log sw reqs k :
  add_waiter_answers (cleanup_log sw reqs k) = [].
Proof.
  revert k. induction reqs as [|r reqs IH]; intros [|k]; simpl; try done.
  apply add_waiter_answers_delete_log.
Qed.

Lemma poll_answers_registration_log sw reqs :
  poll_answers (registration_log sw reqs) = [].
Proof. by induction reqs. Qed.

Lemma poll_answers_delete_log sw reqs :
  poll_answers (delete_log sw reqs) = [].
Proof. by induction reqs. Qed.

Lemma poll_answers_cleanup_log sw reqs k :
  k ≤ length reqs →
  poll_answers (cleanup_log sw reqs k) =
    replicate k false ++ (if bool_decide (k < length reqs) then [true] else []).
Proof.
  revert k. induction reqs as [|r reqs IH]; intros k Hk; simpl in *.
  - by replace k with 0 by lia.
  - destruct k as [|k]; simpl.
    + by rewrite poll_answers_delete_log.
    + rewrite IH by lia.
      by rewrite (bool_decide_ext (S k < S (length reqs)) (k < length reqs)) by lia.
Qed.

Lemma deleted_waiters_registration_log sw reqs :
  deleted_waiters (registration_log sw reqs) = [].
Proof. by induction reqs. Qed.

Lemma deleted_waiters_delete_log sw reqs :
  deleted_waiters (delete_log sw reqs) = (λ r, (r, sw)) <$> reqs.
Proof. induction reqs as [|r reqs IH]; [done|]. simpl. by f_equal. Qed.

Lemma deleted_waiters_cleanup_log sw reqs k :
  deleted_waiters (cleanup_log sw reqs k) = (λ r, (r, sw)) <$> reqs.
Proof.
  revert k. induction reqs as [|r reqs IH]; intros [|k]; simpl; try done.
  - f_equal. apply deleted_waiters_delete_log.
  - f_equal. apply IH.
Qed.

Lemma calls_check_error_app l1 l2 :
  calls_check_error (l1 ++ l2) = calls_check_error l1 || calls_check_error l2.
Proof. apply existsb_app. Qed.

Lemma calls_check_error_registration_log sw reqs :
  calls_check_error (registration_log sw reqs) = false.
Proof. by induction reqs. Qed.

Lemma calls_check_error_delete_log sw reqs :
  calls_check_error (delete_log sw reqs) = false.
Proof. by induction reqs. Qed.

Lemma calls_check_error_cleanup_log sw reqs k :
  calls_check_error (cleanup_log sw reqs k) = false.
Proof.
  revert k. induction reqs as [|r reqs IH]; intros [|k]; simpl; try done.
  apply calls_check_error_delete_log.
Qed.

(** The entries of the logs of the loops. *)
Lemma elem_of_registration_log e sw reqs :
  e ∈ registration_log sw reqs ↔ ∃ r, e = EAddWaiter r sw false ∧ r ∈ reqs.
Proof. apply list_elem_of_fmap. Qed.

Lemma elem_of_delete_log e sw reqs :
  e ∈ delete_log sw reqs ↔ ∃ r, e = EDeleteWaiter r sw ∧ r ∈ reqs.
Proof. apply list_elem_of_fmap. Qed.

Lemma elem_of_cleanup_log e sw reqs k :
  e ∈ cleanup_log sw reqs k →
  ∃ r, r ∈ reqs ∧ (e = EDeleteWaiter r sw ∨ ∃ b, e = EPoll r b).
Proof.
  revert k. induction reqs as [|r reqs IH]; intros k; simpl.
  - by intros ?%elem_of_nil.
  - destruct k as [|k]; rewrite !elem_of_cons.
    + intros [->|[->|He]].
      * exists r. split; [left|]; eauto.
      * exists r. split; [left|]; eauto.
      * apply elem_of_delete_log in He as (r' & -> & Hr').
        exists r'. split; [by right|by left].
    + intros [->|[->|He]].
      * exists r. split; [left|]; eauto.
      * exists r. split; [left|]; eauto.
      * apply IH in He as (r' & Hr' & He). exists r'. split; [by right|done].
Qed.

Lemma cleanup_log_deletes sw reqs k r :
  r ∈ reqs → EDeleteWaiter r sw ∈ cleanup_log sw reqs k.
Proof.
  revert k. induction reqs as [|r' reqs IH]; intros k; [by intros ?%elem_of_nil|].
  intros [->|Hr]%elem_of_cons; destruct k as [|k]; simpl.
  - by left.
  - by left.
  - right. right. apply elem_of_delete_log. eauto.
  - right. right. by apply IH.
Qed.

(** The answers of [add_waiter] tell the two shapes apart. *)
Lemma registration_path_at_answers reqs i log o :
  registration_path_at reqs i log o →
  add_waiter_answers log = replicate i false ++ [true].
Proof.
  intros (sw & r & err & Hi & -> & _). unfold add_waiter_answers. simpl.
  rewrite omap_app. simpl. rewrite omap_app. simpl.
  fold (add_waiter_answers (registration_log sw (take i reqs))).
  fold (add_waiter_answers (delete_log sw (reverse (take i reqs)))).
  rewrite add_waiter_answers_registration_log, add_waiter_answers_delete_log.
  rewrite length_take_le; [done|]. apply lookup_lt_Some in Hi. lia.
Qed.

Lemma wakeup_path_at_answers reqs k log o :
  wakeup_path_at reqs k log o →
  add_waiter_answers log = replicate (length reqs) false.
Proof.
  intros (sw & Hk & -> & _). unfold add_waiter_answers. simpl.
  rewrite omap_app. simpl. rewrite omap_app. simpl.
  fold (add_waiter_answers (registration_log sw reqs)).
  fold (add_waiter_answers (cleanup_log sw reqs k)).
  rewrite add_waiter_answers_registration_log, add_waiter_answers_cleanup_log.
  by rewrite app_nil_r.
Qed.

Lemma lookup_first_true i j :
  (replicate i false ++ [true]) !! j = Some true → j = i.
Proof.
  intros Hj. destruct (decide (j < i)) as [Hlt|Hge].
  - rewrite lookup_app_l in Hj by (by rewrite length_replicate).
    by apply lookup_replicate_1 in Hj as [? _].
  - rewrite lookup_app_r in Hj by (rewrite length_replicate; lia).
    rewrite length_replicate in Hj. apply lookup_lt_Some in Hj. simpl in Hj. lia.
Qed.

Lemma registration_path_at_deleted reqs i log o :
  registration_path_at reqs i log o →
  ∃ sw, deleted_waiters log = (λ r, (r, sw)) <$> reverse (take i reqs).
Proof.
  intros (sw & r & err & Hi & -> & _). exists sw. unfold deleted_waiters. simpl.
  rewrite omap_app. simpl. rewrite omap_app. simpl.
  fold (deleted_waiters (registration_log sw (take i reqs))).
  fold (deleted_waiters (delete_log sw (reverse (take i reqs)))).
  rewrite deleted_waiters_registration_log, deleted_waiters_delete_log.
  by rewrite app_nil_r.
Qed.

Lemma registration_path_at_calls reqs i log o e r :
  registration_path_at reqs i log o →
  e ∈ log → entry_req e = Some r → r ∈ take (S i) reqs.
Proof.
  intros (sw & r' & err & Hi & -> & _).
  rewrite (take_S_r _ _ _ Hi).
  rewrite !elem_of_cons, elem_of_app, elem_of_cons, elem_of_app, !elem_of_cons,
    elem_of_registration_log, elem_of_delete_log, elem_of_nil.
  setoid_rewrite elem_of_reverse. rewrite elem_of_app, list_elem_of_singleton.
  intros He Hr. destruct_or!; destruct_and?; try destruct He as (? & -> & ?);
    simplify_eq/=; eauto.
Qed.

Lemma registration_path_no_wait_for_on reqs log o sw' :
  registration_path reqs log o → EWaitForOn sw' ∉ log.
Proof.
  intros (i & sw & r & err & Hi & -> & _).
  rewrite !elem_of_cons, elem_of_app, elem_of_cons, elem_of_app, !elem_of_cons,
    elem_of_registration_log, elem_of_delete_log, elem_of_nil.
  naive_solver.
Qed.

Lemma wakeup_path_at_deleted reqs k log o :
  wakeup_path_at reqs k log o →
  ∃ sw, deleted_waiters log = (λ r, (r, sw)) <$> reqs.
Proof.
  intros (sw & Hk & -> & _). exists sw. unfold deleted_waiters. simpl.
  rewrite omap_app. simpl. rewrite omap_app. simpl.
  fold (deleted_waiters (registration_log sw reqs)).
  fold (deleted_waiters (cleanup_log sw reqs k)).
  rewrite deleted_waiters_registration_log, deleted_waiters_cleanup_log.
  by rewrite app_nil_r.
Qed.

Lemma wakeup_path_at_polls reqs k log o :
  wakeup_path_at reqs k log o →
  poll_answers log =
    replicate k false ++ (if bool_decide (k < length reqs) then [true] else []).
Proof.
  intros (sw & Hk & -> & _). unfold poll_answers. simpl.
  rewrite omap_app. simpl. rewrite omap_app. simpl.
  fold (poll_answers (registration_log sw reqs)).
  fold (poll_answers (cleanup_log sw reqs k)).
  rewrite poll_answers_registration_log, poll_answers_cleanup_log by done.
  by rewrite app_nil_r.
Qed.

(** ** [wait_any], on its logs *)

(** C1.  When the first loop of [wait_any] gets the answer true from
    [add_waiter] at position [i] (the [i]-th call of [add_waiter] of the
    run is the one that answers true), the run is the one of
    [registration_path_at]: the loop stops at [i]; [delete_waiter] is
    called with the switch of the call on the requests of the positions
    [i-1] down to 0, and on no other; [check_error] is called on the
    request of position [i]; the run returns [i], unless [check_error]
    throws, and then its error leaves [wait_any]; and no call of the run
    is on a request of a position after [i]. *)
Theorem wait_any_registration_scan_finds reqs log o i :
  exec (wait_any reqs) log o →
  add_waiter_answers log !! i = Some true →
  registration_path_at reqs i log o ∧
  add_waiter_answers log = replicate i false ++ [true] ∧
  (∃ sw, deleted_waiters log = (λ r, (r, sw)) <$> reverse (take i reqs)) ∧
  (∀ e r, e ∈ log → entry_req e = Some r → r ∈ take (S i) reqs).
Proof.
  intros [(i' & Hpath)|(k & Hpath)]%wait_any_exec Hi.
  - pose proof (registration_path_at_answers _ _ _ _ Hpath) as Hans.
    rewrite Hans in Hi. apply lookup_first_true in Hi as ->.
    split_and!; [done..| |].
    + by eapply registration_path_at_deleted.
    + intros e r. by eapply registration_path_at_calls.
  - rewrite (wakeup_path_at_answers _ _ _ _ Hpath) in Hi.
    by apply lookup_replicate_1 in Hi as [? _].
Qed.

Lemma registration_scan_log_exec :
  exec (wait_any [3; 4; 5; 6]) registration_scan_log (Returned 2).
Proof. apply wait_any_exec. left. by exists 2, 0, 5, None. Qed.

Lemma wait_any_registration_scan_finds_witness :
  exec (wait_any [3; 4; 5; 6]) registration_scan_log (Returned 2) ∧
  add_waiter_answers registration_scan_log !! 2 = Some true ∧
  registration_path_at [3; 4; 5; 6] 2 registration_scan_log (Returned 2).
Proof.
  split; [exact registration_scan_log_exec|]. split; [reflexivity|].
  exact (proj1 (wait_any_registration_scan_finds [3; 4; 5; 6]
                  registration_scan_log (Returned 2) 2
                  registration_scan_log_exec eq_refl)).
Defined.

(** C2.  When [wait_any] gets to its second loop ([wait_for_on] has
    returned), the run is the one of [wakeup_path_at]: [delete_waiter] is
    called with the switch of the call on every request of the range, in
    the order of the range; the requests are polled in that order up to
    the first [poll] that answers true; the run returns the position [k]
    of that request, the lowest one whose [poll] answered true, when there
    is one. *)
Theorem wait_any_post_wakeup_scan reqs log o :
  exec (wait_any reqs) log o →
  (∃ sw, EWaitForOn sw ∈ log) →
  ∃ k,
    wakeup_path_at reqs k log o ∧
    (∃ sw, deleted_waiters log = (λ r, (r, sw)) <$> reqs) ∧
    poll_answers log =
      replicate k false ++ (if bool_decide (k < length reqs) then [true] else []) ∧
    (∀ j, poll_answers log !! j = Some true →
          j = k ∧ k < length reqs ∧ o = Returned k).
Proof.
  intros [Hpath|(k & Hpath)]%wait_any_exec [sw Hsw].
  - by apply (registration_path_no_wait_for_on _ _ _ sw) in Hpath.
  - exists k. pose proof (wakeup_path_at_polls _ _ _ _ Hpath) as Hpolls.
    split_and!; [done|by eapply wakeup_path_at_deleted|done|].
    intros j Hj. rewrite Hpolls in Hj. case_bool_decide as Hk.
    + apply lookup_first_true in Hj as ->.
      by destruct Hpath as (? & _ & _ & ->).
    + rewrite app_nil_r in Hj. by apply lookup_replicate_1 in Hj as [? _].
Qed.

Lemma wakeup_scan_log_exec :
  exec (wait_any [3; 4; 5]) wakeup_scan_log (Returned 1).
Proof. apply wait_any_exec. right. exists 1, 0. split_and!; [simpl; lia|done..]. Qed.

Lemma wait_any_post_wakeup_scan_witness :
  exec (wait_any [3; 4; 5]) wakeup_scan_log (Returned 1) ∧
  (∃ sw, EWaitForOn sw ∈ wakeup_scan_log) ∧
  ∃ k, wakeup_path_at [3; 4; 5] k wakeup_scan_log (Returned 1).
Proof.
  assert (Hw : ∃ sw, EWaitForOn sw ∈ wakeup_scan_log).
  { exists 0. unfold wakeup_scan_log. apply list_elem_of_In. simpl. tauto. }
  split; [exact wakeup_scan_log_exec|]. split; [exact Hw|].
  destruct (wait_any_post_wakeup_scan [3; 4; 5] wakeup_scan_log (Returned 1)
              wakeup_scan_log_exec Hw) as (k & Hk & _).
  by exists k.
Defined.

Lemma registration_log_undone sw reqs tail l1 l2 r s :
  (∀ r, r ∈ reqs → EDeleteWaiter r sw ∈ tail) →
  (∀ r s, EAddWaiter r s false ∉ tail) →
  registration_log sw reqs ++ tail = l1 ++ EAddWaiter r s false :: l2 →
  EDeleteWaiter r s ∈ l2.
Proof.
  revert l1. induction reqs as [|r0 reqs IH]; intros l1 Hdel Hno Heq; simpl in *.
  - destruct (Hno r s). rewrite Heq. apply elem_of_app. right. by left.
  - destruct l1 as [|x l1]; simplify_eq/=.
    + apply elem_of_app. right. apply Hdel. by left.
    + apply (IH l1); [|done..]. intros r' Hr'. apply Hdel. by right.
Qed.

Lemma wait_any_registrations_undone reqs log o :
  exec (wait_any reqs) log o → registrations_undone log.
Proof.
  intros [(i & sw & r & err & Hi & -> & _)|(k & sw & Hk & -> & _)]%wait_any_exec
    l1 l2 r' s Heq.
  - destruct l1 as [|x1 [|x2 l1]]; simplify_eq/=.
    eapply registration_log_undone; [| |done].
    + intros r0 Hr0. right. apply elem_of_app. left.
      apply elem_of_delete_log. exists r0. by rewrite elem_of_reverse.
    + intros r0 s0. rewrite elem_of_cons, elem_of_app, !elem_of_cons,
        elem_of_delete_log, elem_of_nil. naive_solver.
  - destruct l1 as [|x1 [|x2 l1]]; simplify_eq/=.
    eapply registration_log_undone; [| |done].
    + intros r0 Hr0. right. apply elem_of_app. left. by apply cleanup_log_deletes.
    + intros r0 s0. rewrite elem_of_cons, elem_of_app, !elem_of_cons, elem_of_nil.
      intros [|[(? & ? & [|[]])%elem_of_cleanup_log|[|[]]]]; simplify_eq.
Qed.

Lemma fresh_world_wf : wf fresh_world.
Proof. split; simpl; set_solver. Qed.

Lemma run_schedule_reach {A} ds (cfg : prog A * World) :
  rtc (step handle env_apply) cfg
    ((run_schedule handle env_apply ds cfg).1, (run_schedule handle env_apply ds cfg).2).
Proof. rewrite <-surjective_pairing. apply run_schedule_steps. Qed.

(** C3.  No request keeps a registration of the switch of the call once
    [wait_any] has ended, by either path.  On the logs: every
    registration that [add_waiter] recorded is followed by the
    [delete_waiter] of the switch on that request.  On the states, in
    every interleaving: when the call has ended, by return or by the error
    of [check_error], the switch created by the call (the one numbered
    [next_switch w0]) is registered on no request, and the registrations
    of every request are those it had at the call. *)
Theorem wait_any_no_leak reqs :
  (∀ log o, exec (wait_any reqs) log o → registrations_undone log) ∧
  (∀ w0 t w o,
     wf w0 →
     rtc (step handle env_apply) (wait_any reqs, w0) (t, w) →
     result_of t = Some o →
     ∀ r, (next_switch w0 ∉ waiters (requests w r)) ∧
          waiters (requests w r) = waiters (requests w0 r)).
Proof.
  split; [apply wait_any_registrations_undone|].
  intros w0 t w o Hwf Hsteps Ho r.
  destruct (wp_adequate _ _ _ _ _ _ _ _ (wait_any_wp reqs w0 Hwf) Hsteps) as [Hpost _].
  destruct (Hpost o Ho) as [Hw _]. split; [|done].
  rewrite Hw. by apply sw_fresh.
Qed.

Lemma wait_any_no_leak_witness :
  wf fresh_world ∧
  rtc (step handle env_apply) (wait_any [0; 1; 2], fresh_world) (run_B.1, run_B.2) ∧
  result_of run_B.1 = Some (Returned 2) ∧
  ∀ r, (next_switch fresh_world ∉ waiters (requests run_B.2 r)) ∧
       waiters (requests run_B.2 r) = waiters (requests fresh_world r).
Proof.
  split; [exact fresh_world_wf|].
  split; [apply run_schedule_reach|].
  split; [vm_compute; reflexivity|].
  apply (proj2 (wait_any_no_leak [0; 1; 2]) fresh_world run_B.1 run_B.2 (Returned 2)).
  - exact fresh_world_wf.
  - apply run_schedule_reach.
  - vm_compute. reflexivity.
Defined.

(** ** [check_error] *)

Lemma calls_check_error_poll_log reqs k : calls_check_error (poll_log reqs k) = false.
Proof. revert k. induction reqs as [|r reqs IH]; intros [|k]; simpl; auto. Qed.

Lemma calls_check_error_wait_log reqs : calls_check_error (EWait <$> reqs) = false.
Proof. by induction reqs. Qed.

Lemma calls_check_error_cancel_log reqs bs :
  calls_check_error (zip_with ECancel reqs bs) = false.
Proof. revert bs. induction reqs as [|r reqs IH]; intros [|b bs]; simpl; auto. Qed.

Lemma registration_path_at_check_error reqs i log o :
  registration_path_at reqs i log o → calls_check_error log = true.
Proof.
  intros (sw & r & err & Hi & -> & _). simpl.
  rewrite calls_check_error_app. simpl. rewrite calls_check_error_app. simpl.
  by rewrite calls_check_error_registration_log, calls_check_error_delete_log.
Qed.

Lemma wakeup_path_at_check_error reqs k log o :
  wakeup_path_at reqs k log o → calls_check_error log = false.
Proof.
  intros (sw & Hk & -> & _). simpl.
  rewrite calls_check_error_app. simpl. rewrite calls_check_error_app. simpl.
  by rewrite calls_check_error_registration_log, calls_check_error_cleanup_log.
Qed.

(** C4.  In [wait_any], [check_error] is called exactly in the runs that
    return from the first loop ([registration_path_at], where the call is
    on the request returned); the runs that return from the second loop
    make no call of [check_error] and always return a position, never an
    error.  No run of [poll_any], [wait_all] or [cancel_all] calls
    [check_error] or ends with an error.  So the error stored in a request
    returned by the second loop is not raised: the last part is such a
    run, on a request that has failed. *)
Theorem check_error_only_in_registration_scan reqs :
  (∀ log o, exec (wait_any reqs) log o →
     (calls_check_error log = true ↔ ∃ i, registration_path_at reqs i log o) ∧
     (calls_check_error log = false ↔ ∃ k, wakeup_path_at reqs k log o) ∧
     ((∃ sw, EWaitForOn sw ∈ log) → calls_check_error log = false ∧ ∃ k, o = Returned k)) ∧
  (∀ log o, exec (poll_any reqs) log o →
     calls_check_error log = false ∧ ∃ k, o = Returned k) ∧
  (∀ log o, exec (wait_all reqs) log o →
     calls_check_error log = false ∧ o = Returned tt) ∧
  (∀ log o, exec (cancel_all reqs) log o →
     calls_check_error log = false ∧ ∃ n, o = Returned n) ∧
  outcome_of_schedule (replicate 3 Me ++ [Other (Fail 0 7)] ++ replicate 4 Me)
    (wait_any [0]) fresh_world = Some (Returned 0).
Proof.
  split_and!.
  - intros log o [(i & Hpath)|(k & Hpath)]%wait_any_exec.
    + pose proof (registration_path_at_check_error _ _ _ _ Hpath) as Hc.
      split_and!.
      * split; eauto.
      * rewrite Hc. split; [done|]. intros (k & Hk).
        apply wakeup_path_at_check_error in Hk. congruence.
      * intros [sw Hsw].
        destruct (registration_path_no_wait_for_on reqs log o sw); [by exists i|done].
    + pose proof (wakeup_path_at_check_error _ _ _ _ Hpath) as Hc.
      split_and!.
      * rewrite Hc. split; [done|]. intros (i & Hi).
        apply registration_path_at_check_error in Hi. congruence.
      * split; eauto.
      * intros _. split; [done|]. destruct Hpath as (? & _ & _ & ->). eauto.
  - intros log o (k & Hk & -> & ->)%poll_any_loop_exec.
    split; [apply calls_check_error_poll_log|eauto].
  - intros log o [-> ->]%wait_all_exec.
    split; [apply calls_check_error_wait_log|done].
  - intros log o (bs & Hbs & -> & ->)%cancel_all_loop_exec.
    split; [apply calls_check_error_cancel_log|eauto].
  - vm_compute. reflexivity.
Qed.

Lemma check_error_only_in_registration_scan_witness :
  exec (wait_any [3; 4; 5]) wakeup_scan_log (Returned 1) ∧
  calls_check_error wakeup_scan_log = false.
Proof.
  split; [exact wakeup_scan_log_exec|].
  destruct (proj1 (check_error_only_in_registration_scan [3; 4; 5])
              wakeup_scan_log (Returned 1) wakeup_scan_log_exec) as (_ & _ & H).
  apply H. exists 0. unfold wakeup_scan_log. apply list_elem_of_In. simpl. tauto.
Defined.

(** ** [poll_any] and [cancel_all] *)

Lemma first_terminal_le w reqs : first_terminal w reqs ≤ length reqs.
Proof. induction reqs as [|r reqs IH]; simpl; [done|]. destruct (is_terminal w r); lia. Qed.

Lemma first_terminal_end w reqs :
  first_terminal w reqs = length reqs ↔ ∀ r, r ∈ reqs → is_terminal w r = false.
Proof.
  induction reqs as [|r reqs IH]; simpl.
  - split; [|done]. by intros _ r ?%elem_of_nil.
  - destruct (is_terminal w r) eqn:Ht.
    + split; [done|]. intros H. rewrite H in Ht; [done|by left].
    + split.
      * intros H r' [->|Hr']%elem_of_cons; [done|]. apply IH; [lia|done].
      * intros H. f_equal. apply IH. intros r' Hr'. apply H. by right.
Qed.

Lemma first_terminal_before w reqs j r :
  j < first_terminal w reqs → reqs !! j = Some r → is_terminal w r = false.
Proof.
  revert j. induction reqs as [|r' reqs IH]; intros j; simpl; [lia|].
  destruct (is_terminal w r') eqn:Ht; [lia|].
  destruct j as [|j]; simpl; [by intros _ [= <-]|]. intros Hj. apply IH. lia.
Qed.

Lemma first_terminal_found w reqs :
  first_terminal w reqs < length reqs →
  ∃ r, reqs !! first_terminal w reqs = Some r ∧ is_terminal w r = true.
Proof.
  induction reqs as [|r reqs IH]; simpl; [lia|].
  destruct (is_terminal w r) eqn:Ht; [by exists r|].
  intros Hlt. apply IH. lia.
Qed.

Lemma poll_any_loop_run reqs cur w :
  run handle (poll_any_loop reqs cur) w
  = Some (Returned (cur + first_terminal w reqs), w).
Proof.
  revert cur. induction reqs as [|r reqs IH]; intros cur; simpl.
  - by rewrite Nat.add_0_r.
  - destruct (is_terminal w r); simpl.
    + by rewrite Nat.add_0_r.
    + rewrite IH. do 3 f_equal. lia.
Qed.

(** [poll_any] is suspended in no state, whatever the other parties do. *)
Lemma poll_any_loop_never_blocked reqs cur w :
  wp handle env_apply (λ _, False) (poll_any_loop reqs cur) (λ o _, ∃ k, o = Returned k) w.
Proof.
  revert cur w. induction reqs as [|r reqs IH]; intros cur w; simpl.
  - apply (wp_end _ _ _ (Returned cur)). eauto.
  - apply wp_call. intros w1 _. simpl. destruct (is_terminal w1 r).
    + apply (wp_end _ _ _ (Returned cur)). eauto.
    + apply IH.
Qed.

Lemma poll_answers_poll_log reqs k :
  k ≤ length reqs →
  poll_answers (poll_log reqs k) =
    replicate k false ++ (if bool_decide (k < length reqs) then [true] else []).
Proof.
  revert k. induction reqs as [|r reqs IH]; intros k Hk; simpl in *.
  - by replace k with 0 by lia.
  - destruct k as [|k]; simpl; [done|].
    rewrite IH by lia.
    by rewrite (bool_decide_ext (S k < S (length reqs)) (k < length reqs)) by lia.
Qed.

(** C5.  [poll_any] polls the requests in the order of the range and
    stops at the first [poll] that answers true; it makes no other call.
    It returns the position of that request, the lowest one, and
    [reqs_end] exactly when every [poll] has answered false.  Run on a
    state, it is never suspended, in any interleaving; alone it leaves the
    state as it is and returns [first_terminal], the lowest position of a
    terminal request, which is [reqs_end] if and only if no request of the
    range is terminal. *)
Theorem poll_any_first_terminal reqs :
  (∀ log o, exec (poll_any reqs) log o →
     ∃ k, k ≤ length reqs ∧ log = poll_log reqs k ∧ o = Returned k ∧
          poll_answers log =
            replicate k false ++ (if bool_decide (k < length reqs) then [true] else []) ∧
          (k = length reqs ↔ true ∉ poll_answers log)) ∧
  (∀ w, wp handle env_apply (λ _, False) (poll_any reqs) (λ o _, ∃ k, o = Returned k) w) ∧
  (∀ w, run handle (poll_any reqs) w = Some (Returned (first_terminal w reqs), w)) ∧
  (∀ w, (first_terminal w reqs = length reqs ↔ ∀ r, r ∈ reqs → is_terminal w r = false) ∧
        (∀ j r, j < first_terminal w reqs → reqs !! j = Some r → is_terminal w r = false) ∧
        (first_terminal w reqs < length reqs →
         ∃ r, reqs !! first_terminal w reqs = Some r ∧ is_terminal w r = true)).
Proof.
  split_and!.
  - intros log o (k & Hk & -> & ->)%poll_any_loop_exec. exists k.
    pose proof (poll_answers_poll_log reqs k Hk) as Hpolls.
    split_and!; [done..|]. rewrite Hpolls. case_bool_decide as Hlt.
    + split; [lia|]. intros []. apply elem_of_app. right. by left.
    + split; [|lia]. intros _. rewrite app_nil_r. by intros [? _]%elem_of_replicate.
  - intros w. apply poll_any_loop_never_blocked.
  - intros w. apply (poll_any_loop_run reqs 0).
  - intros w. split_and!.
    + apply first_terminal_end.
    + apply first_terminal_before.
    + apply first_terminal_found.
Qed.

Lemma poll_any_first_terminal_witness :
  exec (poll_any [3; 4; 5]) [EPoll 3 false; EPoll 4 true] (Returned 1) ∧
  ∃ k, k ≤ 3 ∧ [EPoll 3 false; EPoll 4 true] = poll_log [3; 4; 5] k.
Proof.
  assert (He : exec (poll_any [3; 4; 5]) [EPoll 3 false; EPoll 4 true] (Returned 1)).
  { apply poll_any_loop_exec. exists 1. split_and!; [simpl; lia|done..]. }
  split; [exact He|].
  destruct (proj1 (poll_any_first_terminal [3; 4; 5]) _ _ He) as (k & Hk & Hlog & _).
  by exists k.
Defined.

Lemma cancel_answers_cancel_log reqs bs :
  length bs = length reqs → cancel_answers (zip_with ECancel reqs bs) = bs.
Proof.
  revert bs. induction reqs as [|r reqs IH]; intros [|b bs] Hl; simplify_eq/=; [done|].
  f_equal. by apply IH.
Qed.

(** C6.  [cancel_all] calls [cancel] on every request of the range, in
    the order of the range, whatever the earlier calls have answered, and
    makes no other call; it returns the number of the calls that answered
    true.  On the empty range it makes no call and returns 0. *)
Theorem cancel_all_counts reqs :
  (∀ log o, exec (cancel_all reqs) log o →
     length (cancel_answers log) = length reqs ∧
     log = zip_with ECancel reqs (cancel_answers log) ∧
     o = Returned (count_true (cancel_answers log))) ∧
  (∀ bs, length bs = length reqs →
     exec (cancel_all reqs) (zip_with ECancel reqs bs) (Returned (count_true bs))) ∧
  (∀ log o, exec (cancel_all []) log o ↔ log = [] ∧ o = Returned 0).
Proof.
  split_and!.
  - intros log o (bs & Hbs & -> & ->)%cancel_all_loop_exec.
    by rewrite cancel_answers_cancel_log.
  - intros bs Hbs. apply cancel_all_loop_exec. by exists bs.
  - done.
Qed.

Lemma cancel_all_counts_witness :
  exec (cancel_all [3; 4; 5]) [ECancel 3 true; ECancel 4 false; ECancel 5 true] (Returned 2) ∧
  Returned 2 =
    Returned (count_true (cancel_answers [ECancel 3 true; ECancel 4 false; ECancel 5 true])).
Proof.
  assert (He : exec (cancel_all [3; 4; 5])
                 [ECancel 3 true; ECancel 4 false; ECancel 5 true] (Returned 2)).
  { apply cancel_all_loop_exec. by exists [true; false; true]. }
  split; [exact He|].
  exact (proj2 (proj2 (proj1 (cancel_all_counts [3; 4; 5]) _ _ He))).
Defined.

(** ** [wait_all] *)

(** [wait_all] over any state and any methods, of which only this is
    assumed: [wait] returns in a state in which its request is terminal,
    and a terminal request stays terminal, whoever acts. *)
Section WaitAll.
Context {World EnvAct : Type}.
Variable h : ∀ X, reqE X → World → option (X * World).
Variable env : EnvAct → World → World.
Variable term : World → Req → bool.
Hypothesis wait_establishes :
  ∀ r w x w', h _ (Wait r) w = Some (x, w') → term w' r = true.
Hypothesis stable_call :
  ∀ X (c : reqE X) w x w' r, h X c w = Some (x, w') → term w r = true → term w' r = true.
Hypothesis stable_env :
  ∀ a w r, term w r = true → term (env a w) r = true.

Lemma stable_env_steps w w' r :
  rtc (env_step env) w w' → term w r = true → term w' r = true.
Proof using stable_env. induction 1 as [|w1 w2 w3 [a ->] _ IH]; eauto. Qed.

Lemma wait_all_wp waited reqs w :
  (∀ r, r ∈ waited → term w r = true) →
  wp h env (λ _, True) (wait_all reqs)
    (λ o w', o = Returned tt ∧ ∀ r, r ∈ waited ++ reqs → term w' r = true) w.
Proof using wait_establishes stable_call stable_env.
  revert waited w. induction reqs as [|r reqs IH]; intros waited w Hw; simpl.
  - apply (wp_end _ _ _ (Returned tt)). intros w1 Hw1. split; [done|].
    intros r. rewrite app_nil_r. eauto using stable_env_steps.
  - apply wp_call. intros w1 Hw1.
    destruct (h () (Wait r) w1) as [[u w2]|] eqn:Hh; [|done].
    eapply wp_mono; [done| |apply (IH (waited ++ [r]))].
    + intros o w3. by rewrite <-(assoc_L (++)).
    + intros r' [Hr'|Hr']%elem_of_app.
      * eauto using stable_env_steps.
      * apply list_elem_of_singleton in Hr' as ->. eauto.
Qed.
End WaitAll.

(** C7.  [wait_all] calls [wait] on every request of the range, in the
    order of the range, and makes no other call.  Assuming that [wait]
    returns only in a state in which its request is terminal, and that
    terminal requests stay terminal under every call and every action of
    the other parties, in every interleaving all the requests of the range
    are terminal once [wait_all] has returned, so that [poll], which
    answers whether its request is terminal, answers true for each. *)
Theorem wait_all_completes :
  (∀ reqs log o, exec (wait_all reqs) log o → log = EWait <$> reqs ∧ o = Returned tt) ∧
  (∀ (World EnvAct : Type)
     (h : ∀ X, reqE X → World → option (X * World))
     (env : EnvAct → World → World)
     (term : World → Req → bool),
     (∀ r w x w', h _ (Wait r) w = Some (x, w') → term w' r = true) →
     (∀ X (c : reqE X) w x w' r,
        h X c w = Some (x, w') → term w r = true → term w' r = true) →
     (∀ a w r, term w r = true → term (env a w) r = true) →
     (∀ r w, ∃ w', h _ (Poll r) w = Some (term w r, w')) →
     ∀ reqs w t' w' o,
       rtc (step h env) (wait_all reqs, w) (t', w') →
       result_of t' = Some o →
       o = Returned tt ∧
       ∀ r, r ∈ reqs → term w' r = true ∧ ∃ w'', h _ (Poll r) w' = Some (true, w'')).
Proof.
  split; [intros reqs log o; apply wait_all_exec|].
  intros World EnvAct h env term Hwait Hcall Henv Hpoll reqs w t' w' o Hsteps Ho.
  pose proof (wait_all_wp h env term Hwait Hcall Henv [] reqs w) as Hwp.
  destruct (wp_adequate _ _ _ _ _ _ _ _ (Hwp ltac:(by intros r ?%elem_of_nil)) Hsteps)
    as [Hpost _].
  destruct (Hpost o Ho) as [-> Hterm]. split; [done|].
  intros r Hr. specialize (Hterm r Hr). split; [done|].
  destruct (Hpoll r w') as [w'' Hw'']. exists w''. by rewrite <-Hterm.
Qed.

Lemma handle_wait_terminal r w x w' :
  handle _ (Wait r) w = Some (x, w') → is_terminal w' r = true.
Proof. simpl. destruct (is_terminal w r) eqn:Ht; [|done]. by intros [= _ <-]. Qed.

Lemma wait_all_completes_witness :
  rtc (step handle env_apply) (wait_all [0; 1], two_terminal)
    (run_wait_all.1, run_wait_all.2) ∧
  result_of run_wait_all.1 = Some (Returned tt) ∧
  ∀ r, r ∈ [0; 1] →
       is_terminal run_wait_all.2 r = true ∧
       ∃ w'', handle _ (Poll r) run_wait_all.2 = Some (true, w'').
Proof.
  split; [apply run_schedule_reach|].
  split; [vm_compute; reflexivity|].
  apply (proj2 wait_all_completes World env_act handle env_apply is_terminal
           handle_wait_terminal handle_terminal env_apply_terminal
           (λ r w, ex_intro _ w eq_refl)
           [0; 1] two_terminal run_wait_all.1 run_wait_all.2 (Returned tt)).
  - apply run_schedule_reach.
  - vm_compute. reflexivity.
Defined.

(** ** [wait_any]: suspension and return *)

(** [wait_any] ends within four calls per request and four more. *)
Lemma wait_any_undo_while_calls sw r before :
  calls_within (S (length before))
    (r0 ← wait_any_undo_while sw r before; delete_waiter r0 sw).
Proof.
  revert r. induction before as [|r' before IH]; intros r; simpl; [done|].
  intros _. apply IH.
Qed.

Lemma wait_any_undo_calls sw before :
  calls_within (length before) (wait_any_undo sw before).
Proof. destruct before as [|r before]; [done|]. apply wait_any_undo_while_calls. Qed.

Lemma wait_any_cleanup_calls sw reqs_end reqs cur result :
  calls_within (2 * length reqs) (wait_any_cleanup sw reqs_end reqs cur result).
Proof.
  revert cur result. induction reqs as [|r reqs IH]; intros cur result; [done|].
  apply (calls_within_mono (S (S (2 * length reqs)))); [simpl; lia|].
  simpl. intros _. destruct (result =? reqs_end); simpl.
  - intros b. eapply calls_within_mono; [|apply IH]. lia.
  - eapply calls_within_mono; [|apply IH]. lia.
Qed.

Lemma wait_any_scan_calls sw all before reqs :
  calls_within (2 * length reqs + length before + 2 * length all + 1)
    (wait_any_scan sw all before reqs).
Proof.
  revert before. induction reqs as [|r reqs IH]; intros before.
  - apply (calls_within_mono (S (2 * length all))); [simpl; lia|].
    simpl. intros _. eapply calls_within_mono; [|apply wait_any_cleanup_calls]. lia.
  - apply (calls_within_mono
             (S (2 * length reqs + length (r :: before) + 2 * length all + 1)));
      [simpl; lia|].
    simpl. intros [|].
    + eapply calls_within_mono;
        [|apply (calls_within_bind (length before) 1); [apply wait_any_undo_calls|]].
      * lia.
      * intros _. simpl. by intros [|].
    + eapply calls_within_mono; [|apply IH]. simpl. lia.
Qed.

Lemma wait_any_calls reqs :
  calls_within (4 * length reqs + 4) (wait_any reqs).
Proof.
  unfold wait_any, scoped_wait_timer.
  apply (calls_within_mono (S (S (S (4 * length reqs + 1))))); [lia|].
  intros _. apply calls_within_on_exit. intros sw.
  eapply calls_within_mono; [|apply wait_any_scan_calls]. simpl. lia.
Qed.

Lemma some_terminal_not_all_pending reqs w :
  all_pending reqs w → some_terminal reqs w → False.
Proof. intros Hall (r & Hr & Ht). rewrite (Hall r Hr) in Ht. done. Qed.

Lemma handle_some_terminal reqs X (c : reqE X) w x w' :
  handle X c w = Some (x, w') → some_terminal reqs w → some_terminal reqs w'.
Proof. intros Hh (r & Hr & Ht). exists r. eauto using handle_terminal. Qed.

Lemma env_apply_some_terminal reqs a w :
  some_terminal reqs w → some_terminal reqs (env_apply a w).
Proof. intros (r & Hr & Ht). exists r. eauto using env_apply_terminal. Qed.

(** C8.  No missed wakeup.  Take any interleaving of [wait_any reqs] with
    the other parties, started in a well-formed state, and any
    configuration it reaches in which some request of the range is
    terminal, whenever it became so: before the call, between two
    registrations, or while the program was suspended.  There the program
    is not suspended.  Left alone from there it makes its remaining calls
    and ends; and under every schedule that gives it [4 * length reqs + 4]
    turns, whatever the other parties do in between, it has ended.  It ends
    on a terminal request: it returns the position of a terminal request
    of the range, or raises the error stored in a request of the range
    (from [check_error], in the first loop). *)
Theorem wait_any_no_missed_wakeup reqs w0 t w :
  wf w0 →
  rtc (step handle env_apply) (wait_any reqs, w0) (t, w) →
  some_terminal reqs w →
  ¬ blocked handle t w ∧
  (∃ o w', run handle t w = Some (o, w') ∧ ends_on_terminal reqs o w') ∧
  (∀ ds, 4 * length reqs + 4 ≤ turns ds →
     ∃ o, result_of (run_schedule handle env_apply ds (t, w)).1 = Some o ∧
          ends_on_terminal reqs o (run_schedule handle env_apply ds (t, w)).2).
Proof.
  intros Hwf Hsteps Hsome.
  pose proof (wait_any_wp reqs w0 Hwf) as Hwp.
  split_and!.
  - intros Hb. apply (wp_adequate _ _ _ _ _ _ _ _ Hwp Hsteps) in Hb.
    by eapply some_terminal_not_all_pending.
  - eapply wp_steps in Hwp; [|done].
    destruct (wp_run handle env_apply _ (some_terminal reqs) _ _ _
                (some_terminal_not_all_pending reqs)
                (handle_some_terminal reqs) Hwp Hsome) as (o & w' & Hrun & _ & Ho).
    by exists o, w'.
  - intros ds Hturns. eapply wp_steps in Hwp; [|done].
    destruct (wp_schedule handle env_apply _ (some_terminal reqs) _ ds _ t w
                (some_terminal_not_all_pending reqs)
                (handle_some_terminal reqs)
                (env_apply_some_terminal reqs)
                (calls_within_steps _ _ _ _ _ _ _ Hsteps (wait_any_calls reqs))
                Hwp Hsome Hturns) as (o & Ho & _ & Hres).
    by exists o.
Qed.

Lemma wait_any_no_missed_wakeup_witness :
  wf fresh_world ∧
  rtc (step handle env_apply) (wait_any [0; 1; 2], fresh_world)
    (run_racing.1, run_racing.2) ∧
  some_terminal [0; 1; 2] run_racing.2 ∧
  ¬ blocked handle run_racing.1 run_racing.2 ∧
  outcome_of_run run_racing.1 run_racing.2 = Some (Returned 1).
Proof.
  assert (Hsome : some_terminal [0; 1; 2] run_racing.2).
  { exists 1. split; [|vm_compute; reflexivity]. apply list_elem_of_In. simpl. tauto. }
  split; [exact fresh_world_wf|]. split; [apply run_schedule_reach|].
  split; [exact Hsome|].
  split; [|vm_compute; reflexivity].
  exact (proj1 (wait_any_no_missed_wakeup [0; 1; 2] fresh_world
                  run_racing.1 run_racing.2
                  fresh_world_wf (run_schedule_reach _ _) Hsome)).
Defined.

Lemma waits_on_fresh_switch_steps {A} (t t' : prog A) w w' :
  rtc (step handle env_apply) (t, w) (t', w') →
  waits_on_fresh_switch t w → waits_on_fresh_switch t' w'.
Proof.
  remember (t, w) as cfg eqn:E1. remember (t', w') as cfg' eqn:E2.
  intros Hsteps. revert t w E1.
  induction Hsteps as [|cfg [t1 w1] cfg' Hs _ IH]; intros t w E1 Hinv; simplify_eq.
  - done.
  - eapply IH; [done..|]. destruct Hinv as (sw & k & -> & Hoff & Hreg).
    apply step_inv in Hs as [(a & [= -> ->])|(x & w2 & Hh & _)]; simpl in *.
    + exists sw, k. split; [done|].
      pose proof (env_apply_evolves a w) as Hev. split.
      * intros [Hon|(r & Hr & _)]%(ev_on_inv _ _ Hev); [done|by apply (Hreg r)].
      * intros r. rewrite (ev_waiters _ _ Hev). apply Hreg.
    + by rewrite bool_decide_eq_false_2 in Hh.
Qed.

Lemma wait_any_empty_waits w0 :
  wf w0 →
  waits_on_fresh_switch
    (run_schedule handle env_apply [Me; Me] (wait_any [], w0)).1
    (run_schedule handle env_apply [Me; Me] (wait_any [], w0)).2.
Proof.
  intros [Hon Hreg]. simpl. eexists _, _. split; [done|]. simpl. split.
  - intros Hs%Hon. lia.
  - intros r Hs%Hreg. lia.
Qed.

(** C9.  On the empty range [wait_any] registers no waiter: a run makes
    no call of [add_waiter].  After its two first calls (the timer and
    the creation of the switch) it is suspended in [wait_for_on], and it
    stays so in every configuration reached from there, whatever the other
    parties do: it never returns.  And for every range, when [wait_any]
    has ended the range is not empty and one of its requests is
    terminal. *)
Theorem wait_any_empty_never_returns :
  (∀ log o, exec (wait_any []) log o → add_waiter_answers log = []) ∧
  (∀ w0 t w,
     wf w0 →
     rtc (step handle env_apply)
       (run_schedule handle env_apply [Me; Me] (wait_any [], w0)) (t, w) →
     blocked handle t w) ∧
  (∀ w0 t w,
     wf w0 →
     rtc (step handle env_apply) (wait_any [], w0) (t, w) →
     result_of t = None) ∧
  (∀ reqs w0 t w o,
     wf w0 →
     rtc (step handle env_apply) (wait_any reqs, w0) (t, w) →
     result_of t = Some o →
     reqs ≠ [] ∧ some_terminal reqs w).
Proof.
  assert (Hend : ∀ reqs w0 t w o,
     wf w0 →
     rtc (step handle env_apply) (wait_any reqs, w0) (t, w) →
     result_of t = Some o →
     reqs ≠ [] ∧ some_terminal reqs w).
  { intros reqs w0 t w o Hwf Hsteps Ho.
    destruct (wp_adequate _ _ _ _ _ _ _ _ (wait_any_wp reqs w0 Hwf) Hsteps) as [Hpost _].
    destruct (Hpost o Ho) as [_ Hres].
    assert (Hsome : some_terminal reqs w).
    { destruct o as [p|e].
      - destruct Hres as (r & Hr & Ht). exists r.
        split; [by eapply list_elem_of_lookup_2|done].
      - destruct Hres as (p & r & Hr & Hs). exists r.
        split; [by eapply list_elem_of_lookup_2|].
        unfold is_terminal. by rewrite Hs. }
    split; [|done]. intros ->. destruct Hsome as (r & Hr & _).
    by apply elem_of_nil in Hr. }
  split_and!.
  - intros log o Hex.
    apply wait_any_exec in Hex as [(i & Hpath)|(k & Hpath)].
    + by destruct Hpath as (? & ? & ? & ? & _).
    + by rewrite (wakeup_path_at_answers _ _ _ _ Hpath).
  - intros w0 t w Hwf Hsteps.
    pose proof (wait_any_empty_waits w0 Hwf) as Hinv.
    destruct (run_schedule handle env_apply [Me; Me] (wait_any [], w0)) as [t2 w2].
    apply (waits_on_fresh_switch_steps _ _ _ _ Hsteps) in Hinv
      as (sw & k & -> & Hoff & _).
    simpl. by rewrite bool_decide_eq_false_2.
  - intros w0 t w Hwf Hsteps. destruct (result_of t) as [o|] eqn:Ho; [|done].
    by destruct (Hend [] w0 t w o Hwf Hsteps Ho) as [? _].
  - exact Hend.
Qed.

Lemma wait_any_empty_never_returns_witness :
  wf fresh_world ∧
  rtc (step handle env_apply) (wait_any [], fresh_world) (run_empty.1, run_empty.2) ∧
  result_of run_empty.1 = None.
Proof.
  split; [exact fresh_world_wf|]. split; [apply run_schedule_reach|].
  exact (proj1 (proj2 (proj2 wait_any_empty_never_returns))
           fresh_world run_empty.1 run_empty.2
           fresh_world_wf (run_schedule_reach _ _)).
Defined.

(** ** The array overload of [poll_any] *)

(** C10.  The array overload of [poll_any], on an array of at least
    [count] requests: every run ends with a pair of the flag returned and
    of the value assigned to [index]; the index is the offset of the
    iterator returned by the range version on the [count] first requests.
    Run on a state, the flag is true if and only if some request of the
    array is terminal; when it is false the index is [count]; when it is
    true the index is the position of the first terminal request. *)
Theorem poll_any_array_index req_array count :
  count ≤ length req_array →
  (∀ log o, exec (poll_any_array req_array count) log o →
     ∃ k, k ≤ count ∧ log = poll_log (take count req_array) k ∧
          o = Returned (bool_decide (k < count), k)) ∧
  (∀ w, ∃ found index,
     run handle (poll_any_array req_array count) w = Some (Returned (found, index), w) ∧
     index = first_terminal w (take count req_array) ∧
     (found = true ↔ ∃ r, r ∈ take count req_array ∧ is_terminal w r = true) ∧
     (found = false → index = count) ∧
     (found = true →
      index < count ∧ ∃ r, req_array !! index = Some r ∧ is_terminal w r = true)).
Proof.
  intros Hcount.
  assert (Hlen : length (take count req_array) = count) by by apply length_take_le.
  split.
  - intros log o Hex. unfold poll_any_array in Hex.
    apply exec_bind in Hex as [(k & l1 & l2 & H1 & [-> ->] & ->)|(e & H1 & _)].
    + apply poll_any_loop_exec in H1 as (k' & Hk' & -> & [= ->]).
      exists k'. rewrite Hlen in Hk'. split_and!; [done|by rewrite app_nil_r|].
      do 2 f_equal. destruct (Nat.eqb_spec k' count).
      * by rewrite bool_decide_eq_false_2 by lia.
      * by rewrite bool_decide_eq_true_2 by lia.
    + by apply poll_any_loop_exec in H1 as (? & _ & _ & ?).
  - intros w. set (index := first_terminal w (take count req_array)).
    pose proof (first_terminal_le w (take count req_array)) as Hle.
    rewrite Hlen in Hle. fold index in Hle.
    exists (negb (index =? count)), index. split_and!.
    + unfold poll_any_array.
      erewrite run_bind; [|apply (poll_any_loop_run _ 0)]. done.
    + done.
    + rewrite negb_true_iff, Nat.eqb_neq. split.
      * intros Hne. destruct (first_terminal_found w (take count req_array))
          as (r & Hr & Ht); [fold index; lia|].
        exists r. split; [by eapply list_elem_of_lookup_2|done].
      * intros (r & Hr & Ht) Heq.
        assert (Hall : first_terminal w (take count req_array)
                       = length (take count req_array)) by (fold index; lia).
        pose proof (proj1 (first_terminal_end w _) Hall r Hr) as Hp.
        by rewrite Hp in Ht.
    + rewrite negb_false_iff, Nat.eqb_eq. done.
    + rewrite negb_true_iff, Nat.eqb_neq. intros Hne.
      split; [lia|].
      destruct (first_terminal_found w (take count req_array))
        as (r & Hr & Ht); [fold index; lia|].
      exists r. split; [|done]. fold index in Hr.
      rewrite lookup_take_lt in Hr by lia. done.
Qed.

Lemma poll_any_array_index_witness :
  2 ≤ length [3; 4; 5] ∧
  ∃ found index,
    run handle (poll_any_array [3; 4; 5] 2) fresh_world
    = Some (Returned (found, index), fresh_world) ∧
    index = first_terminal fresh_world (take 2 [3; 4; 5]).
Proof.
  split; [simpl; lia|].
  destruct (proj2 (poll_any_array_index [3; 4; 5] 2 ltac:(simpl; lia)) fresh_world)
    as (found & index & Hrun & Hindex & _).
  by exists found, index.
Defined.

(** * Further facts *)

(** ** The result of [cancel_all] *)

Lemma count_true_le bs : count_true bs ≤ length bs.
Proof.
  induction bs as [|b bs IH]; [done|]. rewrite count_true_cons. destruct b; simpl; lia.
Qed.

Lemma count_true_all bs :
  count_true bs = length bs ↔ ∀ b, b ∈ bs → b = true.
Proof.
  induction bs as [|b bs IH]; simpl.
  - split; [|done]. by intros _ b ?%elem_of_nil.
  - rewrite count_true_cons. pose proof (count_true_le bs). destruct b.
    + split.
      * intros Heq b [->|Hb]%elem_of_cons; [done|]. apply IH; [lia|done].
      * intros Hall. f_equal. apply IH. intros b Hb. apply Hall. by right.
    + split; [lia|]. intros Hall. discriminate (Hall false). by left.
Qed.

Lemma count_true_none bs :
  count_true bs = 0 ↔ ∀ b, b ∈ bs → b = false.
Proof.
  induction bs as [|b bs IH]; simpl.
  - split; [|done]. by intros _ b ?%elem_of_nil.
  - rewrite count_true_cons. destruct b.
    + split; [lia|]. intros Hall. discriminate (Hall true). by left.
    + split.
      * intros Heq b [->|Hb]%elem_of_cons; [done|]. by apply IH.
      * intros Hall. apply IH. intros b Hb. apply Hall. by right.
Qed.

(** X1.  The number returned by [cancel_all] is at most the number of
    requests of the range; it is that number exactly when every [cancel]
    answered true, and 0 exactly when every [cancel] answered false. *)
Theorem cancel_all_result_bounds reqs log n :
  exec (cancel_all reqs) log (Returned n) →
  n ≤ length reqs ∧
  (n = length reqs ↔ ∀ b, b ∈ cancel_answers log → b = true) ∧
  (n = 0 ↔ ∀ b, b ∈ cancel_answers log → b = false).
Proof.
  intros (bs & Hbs & -> & [= ->])%cancel_all_loop_exec.
  rewrite cancel_answers_cancel_log by done. rewrite <-Hbs. split_and!.
  - apply count_true_le.
  - apply count_true_all.
  - apply count_true_none.
Qed.

Lemma cancel_all_result_bounds_witness :
  exec (cancel_all [3; 4; 5]) [ECancel 3 true; ECancel 4 false; ECancel 5 true] (Returned 2) ∧
  2 ≤ length [3; 4; 5].
Proof.
  assert (He : exec (cancel_all [3; 4; 5])
                 [ECancel 3 true; ECancel 4 false; ECancel 5 true] (Returned 2)).
  { apply cancel_all_loop_exec. by exists [true; false; true]. }
  split; [exact He|].
  exact (proj1 (cancel_all_result_bounds [3; 4; 5] _ 2 He)).
Defined.

(** ** The calls of [wait_any] *)

Lemma omap_none {A B} (f : A → option B) (l : list A) :
  (∀ x, x ∈ l → f x = None) → omap f l = [].
Proof.
  induction l as [|x l IH]; intros Hf; [done|]. simpl.
  rewrite (Hf x) by (by left). apply IH. intros y Hy. apply Hf. by right.
Qed.

Lemma registration_log_omap {B} (f : entry → option B) sw reqs :
  (∀ r, f (EAddWaiter r sw false) = None) → omap f (registration_log sw reqs) = [].
Proof. intros Hf. apply omap_none. by intros e (r & -> & _)%elem_of_registration_log. Qed.

Lemma delete_log_omap {B} (f : entry → option B) sw reqs :
  (∀ r, f (EDeleteWaiter r sw) = None) → omap f (delete_log sw reqs) = [].
Proof. intros Hf. apply omap_none. by intros e (r & -> & _)%elem_of_delete_log. Qed.

Lemma cleanup_log_omap {B} (f : entry → option B) sw reqs k :
  (∀ r, f (EDeleteWaiter r sw) = None) → (∀ r b, f (EPoll r b) = None) →
  omap f (cleanup_log sw reqs k) = [].
Proof.
  intros Hd Hp. apply omap_none.
  by intros e (r & _ & [->|[b ->]])%elem_of_cleanup_log.
Qed.

Lemma registration_path_at_calls_ok reqs i log o :
  registration_path_at reqs i log o →
  ∃ sw, switches_created log = [sw] ∧ switch_waits log = [] ∧
        timer_calls log = [(true, WAIT_OP_ANY); (false, WAIT_OP_ANY)] ∧
        ∀ e, e ∈ log → wait_any_call reqs sw e.
Proof.
  intros (sw & r & err & Hi & -> & _). exists sw.
  assert (Hr : r ∈ reqs) by by eapply list_elem_of_lookup_2.
  assert (Htake : ∀ r', r' ∈ take i reqs → r' ∈ reqs).
  { intros r' (j & Hj & _)%elem_of_take. by eapply list_elem_of_lookup_2. }
  split_and!.
  - unfold switches_created. simpl. rewrite omap_app. simpl. rewrite omap_app. simpl.
    by rewrite registration_log_omap, delete_log_omap.
  - unfold switch_waits. simpl. rewrite omap_app. simpl. rewrite omap_app. simpl.
    by rewrite registration_log_omap, delete_log_omap.
  - unfold timer_calls. simpl. rewrite omap_app. simpl. rewrite omap_app. simpl.
    by rewrite registration_log_omap, delete_log_omap.
  - intros e. unfold wait_any_call.
    rewrite !elem_of_cons, elem_of_app, elem_of_cons, elem_of_app, !elem_of_cons,
      elem_of_registration_log, elem_of_delete_log, elem_of_nil.
    setoid_rewrite elem_of_reverse.
    intros [->|[->|[(r' & -> & Hr')|[->|[(r' & -> & Hr')|[->|[->|[]]]]]]]];
      naive_solver.
Qed.

Lemma wakeup_path_at_calls_ok reqs k log o :
  wakeup_path_at reqs k log o →
  ∃ sw, switches_created log = [sw] ∧ switch_waits log = [sw] ∧
        timer_calls log = [(true, WAIT_OP_ANY); (false, WAIT_OP_ANY)] ∧
        ∀ e, e ∈ log → wait_any_call reqs sw e.
Proof.
  intros (sw & Hk & -> & _). exists sw. split_and!.
  - unfold switches_created. simpl. rewrite omap_app. simpl. rewrite omap_app. simpl.
    by rewrite registration_log_omap, cleanup_log_omap.
  - unfold switch_waits. simpl. rewrite omap_app. simpl. rewrite omap_app. simpl.
    by rewrite registration_log_omap, cleanup_log_omap.
  - unfold timer_calls. simpl. rewrite omap_app. simpl. rewrite omap_app. simpl.
    by rewrite registration_log_omap, cleanup_log_omap.
  - intros e. unfold wait_any_call.
    rewrite !elem_of_cons, elem_of_app, elem_of_cons, elem_of_app, !elem_of_cons,
      elem_of_registration_log, elem_of_nil.
    intros [->|[->|[(r' & -> & Hr')|[->|[He|[->|[]]]]]]]; [naive_solver..| |naive_solver].
    apply elem_of_cleanup_log in He as (r' & Hr' & [->|[b ->]]); naive_solver.
Qed.

Lemma wait_any_exec_calls reqs log o :
  exec (wait_any reqs) log o →
  ∃ sw, switches_created log = [sw] ∧
        (switch_waits log = [] ∨ switch_waits log = [sw]) ∧
        timer_calls log = [(true, WAIT_OP_ANY); (false, WAIT_OP_ANY)] ∧
        ∀ e, e ∈ log → wait_any_call reqs sw e.
Proof.
  intros [(i & Hpath)|(k & Hpath)]%wait_any_exec.
  - destruct (registration_path_at_calls_ok _ _ _ _ Hpath) as (sw & ? & ? & ? & ?).
    exists sw. eauto.
  - destruct (wakeup_path_at_calls_ok _ _ _ _ Hpath) as (sw & ? & ? & ? & ?).
    exists sw. eauto.
Qed.

(** X2.  A run of [wait_any] creates exactly one switch; every
    [add_waiter], [delete_waiter] and [wait_for_on] of the run is on that
    switch; the run waits for it at most once; and it never calls [wait]
    or [cancel] on a request. *)
Theorem wait_any_one_switch reqs log o :
  exec (wait_any reqs) log o →
  ∃ sw,
    switches_created log = [sw] ∧
    (switch_waits log = [] ∨ switch_waits log = [sw]) ∧
    (∀ e s, e ∈ log → entry_switch e = Some s → s = sw) ∧
    (∀ e r, e ∈ log → e ≠ EWait r ∧ ∀ b, e ≠ ECancel r b).
Proof.
  intros (sw & Hnew & Hwaits & _ & Hcalls)%wait_any_exec_calls.
  exists sw. split_and!; [done..| |].
  - intros e s He Hs. destruct (Hcalls e He)
      as [->|[->|[->|[->|(r & _ & [[b ->]|[->|[[b ->]|[err ->]]]])]]]];
      by simplify_eq/=.
  - intros e r He. destruct (Hcalls e He)
      as [->|[->|[->|[->|(r' & _ & [[b ->]|[->|[[b ->]|[err ->]]]])]]]];
      by split.
Qed.

Lemma wait_any_one_switch_witness :
  exec (wait_any [3; 4; 5]) wakeup_scan_log (Returned 1) ∧
  ∃ sw, switches_created wakeup_scan_log = [sw].
Proof.
  split; [exact wakeup_scan_log_exec|].
  destruct (wait_any_one_switch [3; 4; 5] wakeup_scan_log (Returned 1)
              wakeup_scan_log_exec) as (sw & Hsw & _).
  by exists sw.
Defined.

(** ** The position returned by [wait_any] *)

Lemma cleanup_log_found sw reqs k :
  k < length reqs → ∃ r, reqs !! k = Some r ∧ EPoll r true ∈ cleanup_log sw reqs k.
Proof.
  revert k. induction reqs as [|r reqs IH]; intros k Hk; simpl in *; [lia|].
  destruct k as [|k].
  - exists r. split; [done|]. right. by left.
  - destruct (IH k) as (r' & Hr' & He); [lia|]. exists r'. split; [done|].
    right. by right.
Qed.

(** X3.  What a run of [wait_any] ends with.  A position returned is at
    most [reqs_end].  When it is a position of the range, the request there
    is one whose [add_waiter] or [poll] answered true in the run.  It is
    [reqs_end], which is no position of the range, only when [wait_for_on]
    returned and then the [poll] of every request answered false.  An
    error raised is one thrown by [check_error] on a request of the range
    whose [add_waiter] answered true. *)
Theorem wait_any_result_position reqs log o :
  exec (wait_any reqs) log o →
  match o with
  | Returned p =>
      p ≤ length reqs ∧
      (p < length reqs →
       ∃ r, reqs !! p = Some r ∧
            ((∃ sw, EAddWaiter r sw true ∈ log) ∨ EPoll r true ∈ log)) ∧
      (p = length reqs →
       (∃ sw, EWaitForOn sw ∈ log) ∧
       poll_answers log = replicate (length reqs) false)
  | Raised err =>
      ∃ r sw, r ∈ reqs ∧ EAddWaiter r sw true ∈ log ∧ ECheckError r (Some err) ∈ log
  end.
Proof.
  intros [(i & Hpath)|(k & Hpath)]%wait_any_exec.
  - destruct Hpath as (sw & r & err & Hi & -> & ->).
    assert (Hadd : EAddWaiter r sw true ∈
              ETimerStart WAIT_OP_ANY :: ENewSwitch sw ::
              registration_log sw (take i reqs) ++ EAddWaiter r sw true ::
              delete_log sw (reverse (take i reqs)) ++
              [ECheckError r err; ETimerStop WAIT_OP_ANY]).
    { do 2 right. apply elem_of_app. right. by left. }
    pose proof (lookup_lt_Some _ _ _ Hi) as Hlt.
    destruct err as [e|].
    + exists r, sw. split_and!; [by eapply list_elem_of_lookup_2|done|].
      do 2 right. apply elem_of_app. right. right. apply elem_of_app. right. by left.
    + split_and!; [lia| |lia]. intros _. exists r. split; [done|]. left. by exists sw.
  - pose proof (wakeup_path_at_polls _ _ _ _ Hpath) as Hpolls.
    destruct Hpath as (sw & Hk & -> & ->). split_and!; [done| |].
    + intros Hlt. destruct (cleanup_log_found sw reqs k Hlt) as (r & Hr & He).
      exists r. split; [done|]. right.
      do 2 right. apply elem_of_app. right. right. apply elem_of_app. by left.
    + intros ->. split.
      * exists sw. do 2 right. apply elem_of_app. right. by left.
      * rewrite Hpolls. rewrite bool_decide_eq_false_2 by lia. by rewrite app_nil_r.
Qed.

Lemma wait_any_result_position_witness :
  exec (wait_any [3; 4; 5]) wakeup_scan_log (Returned 1) ∧ 1 ≤ length [3; 4; 5].
Proof.
  split; [exact wakeup_scan_log_exec|].
  exact (proj1 (wait_any_result_position [3; 4; 5] wakeup_scan_log (Returned 1)
                  wakeup_scan_log_exec)).
Defined.

(** ** How many calls *)

Lemma length_cleanup_log sw reqs k :
  length (cleanup_log sw reqs k) = length reqs + min (S k) (length reqs).
Proof.
  revert k. induction reqs as [|r reqs IH]; intros k; simpl; [done|].
  destruct k as [|k]; simpl.
  - unfold delete_log. rewrite length_fmap. lia.
  - rewrite IH. simpl. lia.
Qed.

Lemma length_poll_log reqs k :
  length (poll_log reqs k) = min (S k) (length reqs).
Proof.
  revert k. induction reqs as [|r reqs IH]; intros k; simpl; [done|].
  destruct k as [|k]; simpl; [done|]. rewrite IH. simpl. lia.
Qed.

(** X4.  The number of calls of a run.  [wait_all] and [cancel_all] make
    one call per request.  [poll_any] makes one call per request up to the
    position it returns.  [wait_any] makes [2 * i + 5] calls when it
    returns from the first loop at position [i], and
    [2 * n + min (k + 1) n + 4] calls on [n] requests when its second loop
    returns [k]: never more than [3 * n + 4], the timer and the switch
    included. *)
Theorem group_operations_call_counts reqs :
  (∀ log o, exec (wait_all reqs) log o → length log = length reqs) ∧
  (∀ log o, exec (cancel_all reqs) log o → length log = length reqs) ∧
  (∀ log p, exec (poll_any reqs) log (Returned p) →
     length log = min (S p) (length reqs)) ∧
  (∀ log o, exec (wait_any reqs) log o →
     (∀ i, registration_path_at reqs i log o → length log = 2 * i + 5) ∧
     (∀ k, wakeup_path_at reqs k log o →
           length log = 2 * length reqs + min (S k) (length reqs) + 4) ∧
     length log ≤ 3 * length reqs + 4).
Proof.
  assert (Hreg : ∀ log o i, registration_path_at reqs i log o →
                 length log = 2 * i + 5 ∧ i < length reqs).
  { intros log o i (sw & r & err & Hi & -> & _).
    pose proof (lookup_lt_Some _ _ _ Hi) as Hlt. split; [|done]. simpl.
    rewrite length_app. simpl. rewrite length_app. simpl.
    unfold registration_log, delete_log.
    rewrite !length_fmap, length_reverse, length_take_le by lia. lia. }
  assert (Hwake : ∀ log o k, wakeup_path_at reqs k log o →
                  length log = 2 * length reqs + min (S k) (length reqs) + 4).
  { intros log o k (sw & Hk & -> & _). simpl.
    rewrite length_app. simpl. rewrite length_app, length_cleanup_log. simpl.
    unfold registration_log. rewrite length_fmap. lia. }
  split_and!.
  - intros log o [-> _]%wait_all_exec. by rewrite length_fmap.
  - intros log o (bs & Hbs & -> & _)%cancel_all_loop_exec.
    rewrite length_zip_with. lia.
  - intros log p (k & Hk & -> & [= ->])%poll_any_loop_exec. apply length_poll_log.
  - intros log o Hex. split_and!.
    + intros i Hi. by destruct (Hreg _ _ _ Hi) as [? _].
    + intros k Hk. by eapply Hwake.
    + apply wait_any_exec in Hex as [(i & Hi)|(k & Hk)].
      * destruct (Hreg _ _ _ Hi) as [-> ?]. lia.
      * rewrite (Hwake _ _ _ Hk). lia.
Qed.

Lemma group_operations_call_counts_witness :
  exec (wait_any [3; 4; 5]) wakeup_scan_log (Returned 1) ∧
  length wakeup_scan_log ≤ 3 * length [3; 4; 5] + 4.
Proof.
  split; [exact wakeup_scan_log_exec|].
  exact (proj2 (proj2 (proj2 (proj2 (proj2 (group_operations_call_counts [3; 4; 5])))
                         wakeup_scan_log (Returned 1) wakeup_scan_log_exec))).
Defined.

(** ** The requests that are called *)

Lemma elem_of_poll_log e reqs k :
  e ∈ poll_log reqs k → ∃ r b, e = EPoll r b ∧ r ∈ reqs.
Proof.
  revert k. induction reqs as [|r reqs IH]; intros k; simpl; [by intros ?%elem_of_nil|].
  destruct k as [|k].
  - intros ->%list_elem_of_singleton. exists r, true. split; [done|by left].
  - intros [->|He]%elem_of_cons.
    + exists r, false. split; [done|by left].
    + apply IH in He as (r' & b & -> & Hr'). exists r', b. split; [done|by right].
Qed.

Lemma elem_of_cancel_log e reqs bs :
  e ∈ zip_with ECancel reqs bs → ∃ r b, e = ECancel r b ∧ r ∈ reqs.
Proof.
  revert bs. induction reqs as [|r reqs IH]; intros [|b bs]; simpl;
    try by intros ?%elem_of_nil.
  intros [->|He]%elem_of_cons.
  - exists r, b. split; [done|by left].
  - apply IH in He as (r' & b' & -> & Hr'). exists r', b'. split; [done|by right].
Qed.

Lemma wait_all_in_range reqs log o :
  exec (wait_all reqs) log o → calls_within_range reqs log.
Proof.
  intros [-> _]%wait_all_exec e r (r' & -> & Hr')%list_elem_of_fmap [= <-]. done.
Qed.

Lemma cancel_all_in_range reqs log o :
  exec (cancel_all reqs) log o → calls_within_range reqs log.
Proof.
  intros (bs & _ & -> & _)%cancel_all_loop_exec e r
    (r' & b & -> & Hr')%elem_of_cancel_log [= <-]. done.
Qed.

Lemma poll_any_in_range reqs log o :
  exec (poll_any reqs) log o → calls_within_range reqs log.
Proof.
  intros (k & _ & -> & _)%poll_any_loop_exec e r
    (r' & b & -> & Hr')%elem_of_poll_log [= <-]. done.
Qed.

Lemma wait_any_in_range reqs log o :
  exec (wait_any reqs) log o → calls_within_range reqs log.
Proof.
  intros (sw & _ & _ & _ & Hcalls)%wait_any_exec_calls e r He Hr.
  destruct (Hcalls e He)
    as [->|[->|[->|[->|(r' & Hr' & [[b ->]|[->|[[b ->]|[err ->]]]])]]]];
    by simplify_eq/=.
Qed.

(** X5.  No group operation calls a method on a request that is not in
    its range. *)
Theorem group_operations_stay_in_range reqs :
  (∀ log o, exec (wait_all reqs) log o → calls_within_range reqs log) ∧
  (∀ log o, exec (cancel_all reqs) log o → calls_within_range reqs log) ∧
  (∀ log o, exec (poll_any reqs) log o → calls_within_range reqs log) ∧
  (∀ log o, exec (wait_any reqs) log o → calls_within_range reqs log).
Proof.
  split_and!.
  - apply wait_all_in_range.
  - apply cancel_all_in_range.
  - apply poll_any_in_range.
  - apply wait_any_in_range.
Qed.

Lemma group_operations_stay_in_range_witness :
  exec (wait_any [3; 4; 5]) wakeup_scan_log (Returned 1) ∧
  calls_within_range [3; 4; 5] wakeup_scan_log.
Proof.
  split; [exact wakeup_scan_log_exec|].
  exact (proj2 (proj2 (proj2 (group_operations_stay_in_range [3; 4; 5])))
           wakeup_scan_log (Returned 1) wakeup_scan_log_exec).
Defined.

(** ** The array overloads *)

(** X6.  The array overloads of [wait_all], [poll_any] and [wait_any] call
    methods on the [count] first requests of the array only.  With
    [count = 0], [wait_all] makes no call and returns, and [poll_any]
    makes no call, returns false and sets the index to 0.  On an array of
    at least [count] requests, [wait_any] returns an index of at most
    [count]. *)
Theorem array_overloads_stay_within_count req_array count :
  (∀ log o, exec (wait_all_array req_array count) log o →
     calls_within_range (take count req_array) log) ∧
  (∀ log o, exec (poll_any_array req_array count) log o →
     calls_within_range (take count req_array) log) ∧
  (∀ log o, exec (wait_any_array req_array count) log o →
     calls_within_range (take count req_array) log) ∧
  (∀ log o, exec (wait_all_array req_array 0) log o ↔ log = [] ∧ o = Returned tt) ∧
  (∀ log o, exec (poll_any_array req_array 0) log o ↔
     log = [] ∧ o = Returned (false, 0)) ∧
  (∀ log p, count ≤ length req_array →
     exec (wait_any_array req_array count) log (Returned p) → p ≤ count).
Proof.
  split_and!.
  - intros log o. apply wait_all_in_range.
  - intros log o Hex. unfold poll_any_array in Hex.
    apply exec_bind in Hex as [(k & l1 & l2 & H1 & [-> _] & ->)|(e & H1 & _)].
    + rewrite app_nil_r. by eapply poll_any_in_range.
    + by eapply poll_any_in_range.
  - intros log o. apply wait_any_in_range.
  - intros log o. unfold wait_all_array. by rewrite take_0.
  - intros log o. unfold poll_any_array. by rewrite take_0.
  - intros log p Hcount [(i & Hpath)|(k & Hpath)]%wait_any_exec.
    + destruct Hpath as (sw & r & err & Hi & _ & Ho).
      apply lookup_lt_Some in Hi. rewrite length_take_le in Hi by done.
      destruct err; simplify_eq. lia.
    + destruct Hpath as (sw & Hk & _ & [= ->]).
      by rewrite length_take_le in Hk.
Qed.

Lemma array_overloads_stay_within_count_witness :
  2 ≤ length [3; 4; 5] ∧
  exec (wait_any_array [3; 4; 5] 2)
    [ETimerStart WAIT_OP_ANY; ENewSwitch 0; EAddWaiter 3 0 false;
     EAddWaiter 4 0 true; EDeleteWaiter 3 0; ECheckError 4 None;
     ETimerStop WAIT_OP_ANY] (Returned 1) ∧
  1 ≤ 2.
Proof.
  assert (He : exec (wait_any_array [3; 4; 5] 2)
                 [ETimerStart WAIT_OP_ANY; ENewSwitch 0; EAddWaiter 3 0 false;
                  EAddWaiter 4 0 true; EDeleteWaiter 3 0; ECheckError 4 None;
                  ETimerStop WAIT_OP_ANY] (Returned 1)).
  { apply wait_any_exec. left. by exists 1, 0, 4, None. }
  split; [simpl; lia|]. split; [exact He|].
  exact (proj2 (proj2 (proj2 (proj2 (proj2
           (array_overloads_stay_within_count [3; 4; 5] 2))))) _ 1
           ltac:(simpl; lia) He).
Defined.

(** ** The wait timer *)

Lemma wait_any_exec_bracket reqs log o :
  exec (wait_any reqs) log o →
  ∃ body, log = ETimerStart WAIT_OP_ANY :: body ++ [ETimerStop WAIT_OP_ANY].
Proof.
  unfold wait_any, scoped_wait_timer. intros ([] & l & -> & H).
  apply exec_on_exit in H as (body & _ & ->). by exists body.
Qed.

(** X7.  The wait timer of [wait_any] is started by the first call of a
    run and stopped by its last call, also when [check_error] throws, and
    the run makes no other timer call.  The runs of [wait_all],
    [cancel_all] and [poll_any] make no timer call. *)
Theorem wait_any_timer_bracket reqs :
  (∀ log o, exec (wait_any reqs) log o →
     head log = Some (ETimerStart WAIT_OP_ANY) ∧
     last log = Some (ETimerStop WAIT_OP_ANY) ∧
     timer_calls log = [(true, WAIT_OP_ANY); (false, WAIT_OP_ANY)]) ∧
  (∀ log o, exec (wait_all reqs) log o → timer_calls log = []) ∧
  (∀ log o, exec (cancel_all reqs) log o → timer_calls log = []) ∧
  (∀ log o, exec (poll_any reqs) log o → timer_calls log = []).
Proof.
  split_and!.
  - intros log o Hex.
    destruct (wait_any_exec_bracket _ _ _ Hex) as (body & ->).
    apply wait_any_exec_calls in Hex as (sw & _ & _ & Htimer & _).
    split_and!; [done| |done]. by rewrite app_comm_cons, last_snoc.
  - intros log o [-> _]%wait_all_exec. apply omap_none.
    by intros e (r & -> & _)%list_elem_of_fmap.
  - intros log o (bs & _ & -> & _)%cancel_all_loop_exec. apply omap_none.
    by intros e (r & b & -> & _)%elem_of_cancel_log.
  - intros log o (k & _ & -> & _)%poll_any_loop_exec. apply omap_none.
    by intros e (r & b & -> & _)%elem_of_poll_log.
Qed.

Lemma wait_any_timer_bracket_witness :
  exec (wait_any [3; 4; 5; 6]) registration_scan_log (Returned 2) ∧
  last registration_scan_log = Some (ETimerStop WAIT_OP_ANY).
Proof.
  split; [exact registration_scan_log_exec|].
  exact (proj1 (proj2 (proj1 (wait_any_timer_bracket [3; 4; 5; 6])
                         registration_scan_log (Returned 2)
                         registration_scan_log_exec))).
Defined.

(** ** [wait_any] running alone *)

Lemma run_on_exit {A} op (t : prog A) w :
  run handle (on_exit op t) w = run handle t w.
Proof.
  revert w. induction t as [a|e|X c k IH]; intros w; simpl; [done..|].
  destruct (handle X c w) as [[x w']|]; [apply IH|done].
Qed.

Section WaitAnyAlone.
Variable w0 : World.
Hypothesis Hwf : wf w0.

Local Abbreviation sw := (next_switch w0).

Lemma alone_inv_terminal before w r :
  alone_inv w0 before w → is_terminal w r = is_terminal w0 r.
Proof. intros (_ & _ & _ & Hst). unfold is_terminal. by rewrite (proj1 (Hst r)). Qed.

Lemma alone_inv_delete r L w :
  alone_inv w0 (r :: L) w →
  alone_inv w0 L (set_waiters r (waiters (requests w r) ∖ {[sw]}) w).
Proof.
  intros (Hreg & Hnext & Hon & Hst). split_and!; [|done..|].
  - by apply registered_within_delete.
  - intros r'. simpl. destruct (decide (r = r')) as [->|].
    + rewrite fn_lookup_insert. simpl. apply Hst.
    + rewrite fn_lookup_insert_ne by done. apply Hst.
Qed.

Lemma alone_inv_add r before w :
  alone_inv w0 before w →
  alone_inv w0 (r :: before) (set_waiters r (waiters (requests w r) ∪ {[sw]}) w).
Proof.
  intros ([Hothers Hsw] & Hnext & Hon & Hst). split_and!; [|done..|].
  - split; simpl.
    + intros r' s Hne. destruct (decide (r = r')) as [->|].
      * rewrite fn_lookup_insert. simpl. rewrite <-Hothers by done. set_solver.
      * rewrite fn_lookup_insert_ne by done. by apply Hothers.
    + intros r'. destruct (decide (r = r')) as [->|]; [set_solver|].
      rewrite fn_lookup_insert_ne by done. intros Hs%Hsw. set_solver.
  - intros r'. simpl. destruct (decide (r = r')) as [->|].
    + rewrite fn_lookup_insert. simpl. apply Hst.
    + rewrite fn_lookup_insert_ne by done. apply Hst.
Qed.

Lemma wait_any_undo_while_run r before w :
  alone_inv w0 (r :: before) w →
  ∃ w', run handle (r0 ← wait_any_undo_while sw r before; delete_waiter r0 sw) w
        = Some (Returned tt, w') ∧ alone_inv w0 [] w'.
Proof.
  revert r w. induction before as [|r' before IH]; intros r w Hinv; simpl.
  - eexists. split; [done|]. by apply alone_inv_delete.
  - apply IH. by apply alone_inv_delete.
Qed.

Lemma wait_any_undo_run before w :
  alone_inv w0 before w →
  ∃ w', run handle (wait_any_undo sw before) w = Some (Returned tt, w') ∧
        alone_inv w0 [] w'.
Proof.
  destruct before as [|r before]; [by exists w|]. apply wait_any_undo_while_run.
Qed.

(** The first loop running alone: it stops at the first terminal request
    ahead, or is suspended in [wait_for_on] when there is none. *)
Lemma wait_any_scan_run all before rest w :
  alone_inv w0 before w →
  (first_terminal w0 rest < length rest →
   ∃ r w', rest !! first_terminal w0 rest = Some r ∧
           run handle (wait_any_scan sw all before rest) w
           = Some (found_outcome w0 r (length before + first_terminal w0 rest), w') ∧
           alone_inv w0 [] w') ∧
  (first_terminal w0 rest = length rest →
   run handle (wait_any_scan sw all before rest) w = None).
Proof.
  revert before w. induction rest as [|r rest IH]; intros before w Hinv.
  - split; [simpl; lia|]. intros _. simpl.
    destruct Hinv as (_ & _ & -> & _).
    rewrite bool_decide_eq_false_2; [done|]. by apply sw_off.
  - simpl. rewrite (alone_inv_terminal _ _ r Hinv).
    destruct (is_terminal w0 r) eqn:Ht; simpl.
    + split; [|lia]. intros _. exists r.
      destruct (wait_any_undo_run before w Hinv) as (w1 & Hrun & Hinv1).
      exists w1. split; [done|]. split; [|done].
      erewrite run_bind; [|exact Hrun]. simpl.
      unfold found_outcome, stored_error.
      destruct Hinv1 as (_ & _ & _ & Hst). rewrite (proj1 (Hst r)).
      rewrite Nat.add_0_r. by destruct (state (requests w0 r)).
    + destruct (IH (r :: before) _ (alone_inv_add r before w Hinv)) as [Hfound Hnone].
      split.
      * intros Hlt. destruct Hfound as (r' & w' & Hr' & Hrun & Hinv'); [lia|].
        exists r', w'. split; [done|]. split; [|done]. rewrite Hrun. simpl.
        do 3 f_equal. lia.
      * intros Heq. apply Hnone. lia.
Qed.
End WaitAnyAlone.

Lemma some_terminal_first reqs w :
  some_terminal reqs w → first_terminal w reqs < length reqs.
Proof.
  intros (r & Hr & Ht). pose proof (first_terminal_le w reqs) as Hle.
  destruct (decide (first_terminal w reqs = length reqs)) as [Heq|]; [|lia].
  pose proof (proj1 (first_terminal_end w reqs) Heq r Hr) as Hp. congruence.
Qed.

(** X8.  [wait_any] running alone, with no other party acting, from a
    well-formed state.  When no request of the range is terminal it is
    suspended.  When some request is terminal it is not suspended: it ends
    on the lowest position of a terminal request, the position [poll_any]
    returns in that state, returning it, or raising the stored error when
    that request has failed; and it leaves every request as it was (state
    and registrations) and no switch set: only the number of the next
    switch has changed. *)
Theorem wait_any_alone reqs w :
  wf w →
  (all_pending reqs w → run handle (wait_any reqs) w = None) ∧
  (some_terminal reqs w →
   ∃ r w',
     reqs !! first_terminal w reqs = Some r ∧
     run handle (wait_any reqs) w
     = Some (found_outcome w r (first_terminal w reqs), w') ∧
     run handle (poll_any reqs) w = Some (Returned (first_terminal w reqs), w) ∧
     (∀ r', requests w' r' = requests w r') ∧
     switched_on w' = switched_on w ∧
     next_switch w' = S (next_switch w)).
Proof.
  intros Hwf.
  set (w1 := {| requests := requests w; switched_on := switched_on w;
                next_switch := S (next_switch w) |}).
  assert (Hinv : alone_inv w [] w1).
  { split_and!; [|done..]. split; [done|]. simpl. intros r Hs.
    by apply (sw_fresh w Hwf) in Hs. }
  assert (Hrun : run handle (wait_any reqs) w
                 = run handle (wait_any_scan (next_switch w) reqs [] reqs) w1).
  { unfold wait_any, scoped_wait_timer. simpl. by rewrite run_on_exit. }
  destruct (wait_any_scan_run w Hwf reqs [] reqs w1 Hinv) as [Hfound Hnone].
  split.
  - intros Hall. rewrite Hrun. by apply Hnone, first_terminal_end.
  - intros Hsome%some_terminal_first.
    destruct (Hfound Hsome) as (r & w' & Hr & Hrun' & Hreg & Hnext & Hon & Hst).
    exists r, w'. split_and!; [done| |apply (poll_any_loop_run reqs 0)| |done|done].
    + by rewrite Hrun.
    + intros r'. pose proof (registered_within_nil w Hwf w' r' Hreg) as Hw.
      destruct (Hst r') as [Hs1 Hs2].
      destruct (requests w' r'), (requests w r'). simpl in *. by subst.
Qed.

Lemma evolves_wf w w' : wf w → evolves w w' → wf w'.
Proof.
  intros [Hon Hreg] Hev. split.
  - intros s [Hs|(r & Hs & _)]%(ev_on_inv _ _ Hev); rewrite (ev_next _ _ Hev); eauto.
  - intros r s. rewrite (ev_waiters _ _ Hev), (ev_next _ _ Hev). apply Hreg.
Qed.

Lemma two_terminal_wf : wf two_terminal.
Proof.
  unfold two_terminal.
  eapply evolves_wf; [|apply env_apply_evolves].
  eapply evolves_wf; [|apply env_apply_evolves].
  apply fresh_world_wf.
Qed.

Lemma wait_any_alone_witness :
  wf two_terminal ∧
  some_terminal [2; 1; 0] two_terminal ∧
  outcome_of_run (wait_any [2; 1; 0]) two_terminal = Some (Returned 1).
Proof.
  pose proof two_terminal_wf as Hwf.
  assert (Hsome : some_terminal [2; 1; 0] two_terminal).
  { exists 1. split; [|vm_compute; reflexivity]. apply list_elem_of_In. simpl. tauto. }
  split; [exact Hwf|]. split; [exact Hsome|].
  destruct (proj2 (wait_any_alone [2; 1; 0] two_terminal Hwf) Hsome)
    as (r & w' & Hr & Hrun & _).
  unfold outcome_of_run. rewrite Hrun. simpl.
  vm_compute in Hr. injection Hr as <-. vm_compute. reflexivity.
Defined.

(** ** [poll_any] after [wait_any] *)

Lemma env_steps_terminal w w' r :
  rtc (env_step env_apply) w w' → is_terminal w r = true → is_terminal w' r = true.
Proof. intros Hev. by apply evolves_terminal, env_steps_evolves. Qed.

(** [poll_any] with a terminal request at offset [j] ahead: in every
    interleaving it returns a position at most [j] further, of a terminal
    request. *)
Lemma poll_any_loop_wp_before (B : World → Prop) rest cur j r w :
  rest !! j = Some r → is_terminal w r = true →
  wp handle env_apply B (poll_any_loop rest cur)
    (λ o w', ∃ q r', o = Returned q ∧ cur ≤ q ∧ q ≤ cur + j ∧
                     rest !! (q - cur) = Some r' ∧ is_terminal w' r' = true) w.
Proof.
  revert cur j w. induction rest as [|r0 rest IH]; intros cur j w Hj Ht; [done|].
  simpl. apply wp_call. intros w1 Hw1. simpl.
  pose proof (env_steps_terminal _ _ _ Hw1 Ht) as Ht1.
  destruct (is_terminal w1 r0) eqn:Ht0.
  - apply (wp_end _ _ _ (Returned cur)). intros w2 Hw2. exists cur, r0.
    split_and!; [done|lia|lia| |by eapply env_steps_terminal].
    by rewrite Nat.sub_diag.
  - destruct j as [|j]; simpl in Hj; [congruence|].
    eapply wp_mono; [done| |apply (IH (S cur) j w1 Hj Ht1)].
    intros o w2 (q & r' & -> & Hq1 & Hq2 & Hr' & Ht'). exists q, r'.
    split_and!; [done|lia|lia| |done].
    by replace (q - cur) with (S (q - S cur)) by lia.
Qed.

Lemma wait_any_then_poll_any_wp reqs w0 :
  wf w0 →
  wp handle env_apply (all_pending reqs) (wait_any_then_poll_any reqs)
    (λ o w, match o with
            | Returned (p, q) =>
                q ≤ p ∧ p < length reqs ∧
                ∃ r, reqs !! q = Some r ∧ is_terminal w r = true
            | Raised _ => True
            end) w0.
Proof.
  intros Hwf. unfold wait_any_then_poll_any. apply wp_bind.
  eapply wp_mono; [done| |apply (wait_any_wp reqs w0 Hwf)].
  intros [p|e] w [_ Hend]; [|done]. destruct Hend as (r & Hr & Ht).
  apply wp_bind.
  eapply wp_mono; [done| |apply (poll_any_loop_wp_before _ reqs 0 p r w Hr Ht)].
  intros o w1 (q & r' & -> & _ & Hq & Hr' & Ht').
  apply (wp_end _ _ _ (Returned (p, q))). intros w2 Hw2.
  rewrite Nat.sub_0_r in Hr'.
  split_and!; [lia|by eapply lookup_lt_Some|].
  exists r'. split; [done|]. by eapply env_steps_terminal.
Qed.

(** X9.  [poll_any] after [wait_any], on the same range, in every
    interleaving with the other parties from a well-formed state: when
    [wait_any] has returned the position [p] and [poll_any] then the
    position [q], [p] is a position of the range, [q] is at most [p], and
    the request at [q] is terminal.  [poll_any] does not come back
    empty-handed after [wait_any]. *)
Theorem poll_any_after_wait_any reqs w0 t w p q :
  wf w0 →
  rtc (step handle env_apply) (wait_any_then_poll_any reqs, w0) (t, w) →
  result_of t = Some (Returned (p, q)) →
  q ≤ p ∧ p < length reqs ∧ ∃ r, reqs !! q = Some r ∧ is_terminal w r = true.
Proof.
  intros Hwf Hsteps Ho.
  destruct (wp_adequate _ _ _ _ _ _ _ _ (wait_any_then_poll_any_wp reqs w0 Hwf) Hsteps)
    as [Hpost _].
  exact (Hpost _ Ho).
Qed.

Lemma poll_any_after_wait_any_witness :
  wf fresh_world ∧
  rtc (step handle env_apply) (wait_any_then_poll_any [0; 1; 2], fresh_world)
    (run_wait_then_poll.1, run_wait_then_poll.2) ∧
  result_of run_wait_then_poll.1 = Some (Returned (2, 0)) ∧
  0 ≤ 2.
Proof.
  split; [exact fresh_world_wf|]. split; [apply run_schedule_reach|].
  split; [vm_compute; reflexivity|].
  exact (proj1 (poll_any_after_wait_any [0; 1; 2] fresh_world
                  run_wait_then_poll.1 run_wait_then_poll.2 2 0
                  fresh_world_wf (run_schedule_reach _ _) eq_refl)).
Defined.

(** ** [cancel_all] twice *)

Lemma not_cancellable_finish r s w r' :
  terminal s = true → not_cancellable w r' → not_cancellable (finish r s w) r'.
Proof.
  intros Hs [Ht|Hst]; unfold not_cancellable, is_terminal in *; simpl;
    (destruct (decide (r = r')) as [->|];
     [rewrite fn_lookup_insert|rewrite fn_lookup_insert_ne by done]); simpl; auto.
Qed.

Lemma try_cancel_settles r w : not_cancellable (try_cancel r w).2 r.
Proof.
  unfold try_cancel, not_cancellable, is_terminal.
  destruct (terminal (state (requests w r))) eqn:Ht; simpl; [by left|].
  destruct (started (requests w r)) eqn:Hst; simpl; [by right|].
  left. by rewrite fn_lookup_insert.
Qed.

Lemma try_cancel_keeps r w r' :
  not_cancellable w r' → not_cancellable (try_cancel r w).2 r'.
Proof.
  intros Hn. unfold try_cancel.
  destruct (negb _ && negb _); simpl; [|done]. by apply not_cancellable_finish.
Qed.

Lemma try_cancel_settled r w :
  not_cancellable w r → try_cancel r w = (false, w).
Proof.
  unfold not_cancellable, is_terminal, try_cancel. intros [->| ->]; [done|].
  by rewrite andb_false_r.
Qed.

Lemma env_apply_not_cancellable a w r :
  not_cancellable w r → not_cancellable (env_apply a w) r.
Proof.
  intros Hn. destruct a as [r'|r'|r' e|r']; simpl.
  - destruct (is_terminal w r') eqn:Ht; [done|].
    destruct Hn as [Hn|Hn]; unfold not_cancellable, is_terminal in *; simpl;
      (destruct (decide (r' = r)) as [->|];
       [rewrite fn_lookup_insert|rewrite fn_lookup_insert_ne by done]); simpl; auto.
  - destruct (is_terminal w r'); [done|]. by apply not_cancellable_finish.
  - destruct (is_terminal w r'); [done|]. by apply not_cancellable_finish.
  - by apply try_cancel_keeps.
Qed.

Lemma env_steps_not_cancellable w w' r :
  rtc (env_step env_apply) w w' → not_cancellable w r → not_cancellable w' r.
Proof.
  induction 1 as [|w1 w2 w3 [a ->] _ IH]; [done|].
  intros Hn. by apply IH, env_apply_not_cancellable.
Qed.

(** [cancel_all] settles every request of its range, and cancels none of
    a range that is settled. *)
Lemma cancel_all_loop_wp_settles settled rest n w :
  (∀ r, r ∈ settled → not_cancellable w r) →
  wp handle env_apply (λ _, False) (cancel_all_loop rest n)
    (λ o w', ∃ m, o = Returned m ∧ n ≤ m ∧ m ≤ n + length rest ∧
                  ∀ r, r ∈ settled ++ rest → not_cancellable w' r) w.
Proof.
  revert settled n w. induction rest as [|r rest IH]; intros settled n w Hset; simpl.
  - apply (wp_end _ _ _ (Returned n)). intros w1 Hw1. exists n.
    split_and!; [done|lia|lia|]. intros r. rewrite app_nil_r.
    eauto using env_steps_not_cancellable.
  - apply wp_call. intros w1 Hw1. simpl.
    destruct (try_cancel r w1) as [b w2] eqn:Hc.
    assert (Hw2 : w2 = (try_cancel r w1).2) by by rewrite Hc.
    eapply wp_mono; [| |apply (IH (settled ++ [r]))]; [done| |].
    + intros o w3 (m & -> & Hm1 & Hm2 & Hall). exists m.
      split_and!; [done|destruct b; lia|destruct b; lia|].
      intros r'. rewrite <-(assoc_L (++)) in Hall. apply Hall.
    + intros r' [Hr'|Hr']%elem_of_app; subst w2.
      * apply try_cancel_keeps. eauto using env_steps_not_cancellable.
      * apply list_elem_of_singleton in Hr' as ->. apply try_cancel_settles.
Qed.

Lemma cancel_all_loop_wp_settled (keep : list Req) rest n w :
  (∀ r, r ∈ rest → r ∈ keep) →
  (∀ r, r ∈ keep → not_cancellable w r) →
  wp handle env_apply (λ _, False) (cancel_all_loop rest n)
    (λ o w', o = Returned n ∧ ∀ r, r ∈ keep → not_cancellable w' r) w.
Proof.
  revert w. induction rest as [|r rest IH]; intros w Hsub Hset; simpl.
  - apply (wp_end _ _ _ (Returned n)). intros w1 Hw1. split; [done|].
    eauto using env_steps_not_cancellable.
  - apply wp_call. intros w1 Hw1. simpl.
    assert (Hset1 : ∀ r', r' ∈ keep → not_cancellable w1 r')
      by eauto using env_steps_not_cancellable.
    rewrite try_cancel_settled by (apply Hset1, Hsub; by left).
    apply IH; [|done]. intros r' Hr'. apply Hsub. by right.
Qed.

Lemma cancel_all_twice_wp reqs w0 :
  wp handle env_apply (λ _, False) (cancel_all_twice reqs)
    (λ o w, ∃ n1, o = Returned (n1, 0) ∧ n1 ≤ length reqs ∧
                  ∀ r, r ∈ reqs → not_cancellable w r) w0.
Proof.
  unfold cancel_all_twice, cancel_all. apply wp_bind.
  eapply wp_mono; [| |apply (cancel_all_loop_wp_settles [] reqs 0 w0)];
    [done| |by intros r ?%elem_of_nil].
  intros o w (n1 & -> & _ & Hn1 & Hall). simpl in Hall.
  apply wp_bind.
  eapply wp_mono; [| |apply (cancel_all_loop_wp_settled reqs reqs 0 w); done];
    [done|].
  intros o w1 [-> Hall1].
  apply (wp_end _ _ _ (Returned (n1, 0))). intros w2 Hw2. exists n1.
  split_and!; [done|lia|]. eauto using env_steps_not_cancellable.
Qed.

(** X10.  [cancel_all] twice on the same range, in every interleaving
    with the other parties, which may start, complete, fail and cancel
    requests at any point: the calls are never suspended; when both have
    returned, the first count is at most the length of the range, the
    second count is 0, and every request of the range is terminal or
    started, so that no later [cancel] on it succeeds. *)
Theorem cancel_all_twice_second_is_zero reqs w0 t w :
  rtc (step handle env_apply) (cancel_all_twice reqs, w0) (t, w) →
  ¬ blocked handle t w ∧
  ∀ o, result_of t = Some o →
       ∃ n1, o = Returned (n1, 0) ∧ n1 ≤ length reqs ∧
             ∀ r, r ∈ reqs → not_cancellable w r ∧ try_cancel r w = (false, w).
Proof.
  intros Hsteps.
  destruct (wp_adequate _ _ _ _ _ _ _ _ (cancel_all_twice_wp reqs w0) Hsteps)
    as [Hpost Hb].
  split; [done|]. intros o Ho. destruct (Hpost o Ho) as (n1 & -> & Hn1 & Hall).
  exists n1. split_and!; [done..|]. intros r Hr.
  split; [by apply Hall|]. by apply try_cancel_settled, Hall.
Qed.

Lemma cancel_all_twice_second_is_zero_witness :
  rtc (step handle env_apply) (cancel_all_twice [0; 1; 2], fresh_world)
    (run_cancel_twice.1, run_cancel_twice.2) ∧
  result_of run_cancel_twice.1 = Some (Returned (2, 0)) ∧
  ¬ blocked handle run_cancel_twice.1 run_cancel_twice.2.
Proof.
  split; [apply run_schedule_reach|]. split; [vm_compute; reflexivity|].
  exact (proj1 (cancel_all_twice_second_is_zero [0; 1; 2] fresh_world
                  run_cancel_twice.1 run_cancel_twice.2 (run_schedule_reach _ _))).
Defined.

(** ** The array overload of [wait_any], interleaved *)

(** X11.  [wait_any(req_array, count)] with [count] at most the length of
    the array, called in a well-formed state, in every interleaving with
    the other parties: it is suspended only while all of the first
    [count] requests are pending; an index it returns is less than
    [count], never [count] itself, and the request of the array at that
    index is terminal; an error it raises is the one stored in one of the
    first [count] requests. *)
Theorem wait_any_array_index req_array count w0 t w :
  count ≤ length req_array → wf w0 →
  rtc (step handle env_apply) (wait_any_array req_array count, w0) (t, w) →
  (blocked handle t w → all_pending (take count req_array) w) ∧
  (∀ p, result_of t = Some (Returned p) →
        p < count ∧ ∃ r, req_array !! p = Some r ∧ is_terminal w r = true) ∧
  (∀ e, result_of t = Some (Raised e) →
        ∃ p r, p < count ∧ req_array !! p = Some r ∧
               state (requests w r) = Failed e).
Proof.
  intros Hcount Hwf Hsteps. unfold wait_any_array in Hsteps.
  destruct (wp_adequate _ _ _ _ _ _ _ _
              (wait_any_wp (take count req_array) w0 Hwf) Hsteps) as [Hpost Hb].
  split; [done|]. split.
  - intros p Ho. destruct (Hpost _ Ho) as [_ (r & Hr & Ht)].
    apply lookup_take_Some in Hr as [Hr Hp]. eauto.
  - intros e Ho. destruct (Hpost _ Ho) as [_ (p & r & Hr & Hs)].
    apply lookup_take_Some in Hr as [Hr Hp]. eauto.
Qed.

Lemma wait_any_array_index_witness :
  2 ≤ length [0; 1; 2] ∧ wf fresh_world ∧
  rtc (step handle env_apply) (wait_any_array [0; 1; 2] 2, fresh_world)
    (run_wait_any_array.1, run_wait_any_array.2) ∧
  result_of run_wait_any_array.1 = Some (Returned 1) ∧
  1 < 2.
Proof.
  assert (Hlen : 2 ≤ length [0; 1; 2]) by (simpl; lia).
  split; [exact Hlen|]. split; [exact fresh_world_wf|].
  split; [apply run_schedule_reach|]. split; [vm_compute; reflexivity|].
  exact (proj1 (proj1 (proj2 (wait_any_array_index [0; 1; 2] 2 fresh_world
                  run_wait_any_array.1 run_wait_any_array.2
                  Hlen fresh_world_wf (run_schedule_reach _ _))) 1 eq_refl)).
Defined.

(** ** [poll_any] after [wait_all] *)

Section WaitAllThenPoll.
Context {World EnvAct : Type}.
Variable h : ∀ X, reqE X → World → option (X * World).
Variable env : EnvAct → World → World.
Variable term : World → Req → bool.
Hypothesis wait_establishes :
  ∀ r w x w', h _ (Wait r) w = Some (x, w') → term w' r = true.
Hypothesis stable_call :
  ∀ X (c : reqE X) w x w' r, h X c w = Some (x, w') → term w r = true → term w' r = true.
Hypothesis stable_env :
  ∀ a w r, term w r = true → term (env a w) r = true.
Hypothesis poll_answers_term :
  ∀ r w, ∃ w', h _ (Poll r) w = Some (term w r, w').

Lemma poll_any_loop_wp_head B reqs cur w :
  (∀ r, r ∈ reqs → term w r = true) →
  wp h env B (poll_any_loop reqs cur) (λ o _, o = Returned cur) w.
Proof using stable_env poll_answers_term.
  destruct reqs as [|r reqs]; intros Hall; simpl.
  - by intros w1 _.
  - intros w1 Hw1. destruct (poll_answers_term r w1) as [w2 ->].
    rewrite (stable_env_steps env term stable_env w w1 r Hw1)
      by (apply Hall; by left).
    by intros w3 _.
Qed.

Lemma wait_all_then_poll_any_wp reqs w :
  wp h env (λ _, True) (wait_all_then_poll_any reqs) (λ o _, o = Returned 0) w.
Proof using wait_establishes stable_call stable_env poll_answers_term.
  unfold wait_all_then_poll_any. apply wp_bind.
  eapply wp_mono; [done| |
    apply (wait_all_wp h env term wait_establishes stable_call stable_env [] reqs w);
    by intros r ?%elem_of_nil].
  intros o w1 [-> Hall]. by apply poll_any_loop_wp_head.
Qed.
End WaitAllThenPoll.

(** X12.  [poll_any] after [wait_all] on the same range returns the
    beginning of the range, whatever the range and whatever the other
    parties do in between; on the empty range this is also its end.
    Assumed of the requests, as for [wait_all] alone: [wait] returns only
    in a state in which its request is terminal, terminal requests stay
    terminal under every call and every action of the other parties, and
    [poll] answers whether its request is terminal, without suspending. *)
Theorem poll_any_after_wait_all
    (World EnvAct : Type)
    (h : ∀ X, reqE X → World → option (X * World))
    (env : EnvAct → World → World)
    (term : World → Req → bool) :
  (∀ r w x w', h _ (Wait r) w = Some (x, w') → term w' r = true) →
  (∀ X (c : reqE X) w x w' r,
     h X c w = Some (x, w') → term w r = true → term w' r = true) →
  (∀ a w r, term w r = true → term (env a w) r = true) →
  (∀ r w, ∃ w', h _ (Poll r) w = Some (term w r, w')) →
  ∀ reqs w t' w' o,
    rtc (step h env) (wait_all_then_poll_any reqs, w) (t', w') →
    result_of t' = Some o →
    o = Returned 0.
Proof.
  intros Hwait Hcall Henv Hpoll reqs w t' w' o Hsteps Ho.
  destruct (wp_adequate _ _ _ _ _ _ _ _
              (wait_all_then_poll_any_wp h env term Hwait Hcall Henv Hpoll reqs w)
              Hsteps) as [Hpost _].
  by apply Hpost.
Qed.

Lemma poll_any_after_wait_all_witness :
  rtc (step handle env_apply) (wait_all_then_poll_any [1; 0], fresh_world)
    (run_wait_all_then_poll.1, run_wait_all_then_poll.2) ∧
  result_of run_wait_all_then_poll.1 = Some (Returned 0) ∧
  ∀ o, result_of run_wait_all_then_poll.1 = Some o → o = Returned 0.
Proof.
  split; [apply run_schedule_reach|]. split; [vm_compute; reflexivity|].
  intros o Ho.
  exact (poll_any_after_wait_all World env_act handle env_apply is_terminal
           handle_wait_terminal handle_terminal env_apply_terminal
           (λ r w, ex_intro _ w eq_refl)
           [1; 0] fresh_world run_wait_all_then_poll.1 run_wait_all_then_poll.2
           o (run_schedule_reach _ _) Ho).
Defined.
